(** * Inverse perspective mapping node: [semantic_grid_mapping.py]

    A shallow embedding of the [IPM] node of
    [camera_based_semantic_grid_mapping_r2]: the homography built in
    [apply_ipm], the upper-half mask, the stitching loop of [compute_bev]
    and [load_parameters].

    Conventions of the embedding.
    - Python floats are idealised as exact rationals ([Qc], canonical
      fractions with Leibniz equality); integers are [Z]. Where the
      specification allows a floating tolerance the statement is given
      for every tolerance ([within]), and nothing is concluded about
      whether [np.linalg.inv] raises from the value of a determinant.
    - A numpy 2-D float array is a list of rows ([matrix]); a [bgr8] image
      is a list of rows of pixels, a pixel being its three channels.
    - A Python exception is the [Raise] branch of [result]; statements run
      in the order of the source, so the first exception wins.
    - The collaborators that live outside the file (tf2, cv_bridge, numpy's
      trigonometry, OpenCV's warp) are the fields of [Externals]. *)

From Stdlib Require Import ZArith QArith Qcanon Qround Field Lia.
From stdpp Require Import base decidable option list numbers strings gmap.

Local Open Scope Z_scope.

(** ** Exceptions and the error monad *)

Inductive exn : Set :=
  | IndexError
  | ValueError
  | ZeroDivisionError
  | LinAlgError
  | LookupException
  | AttributeError
  | CvBridgeError
  | Cv2Error.

Inductive result (A : Type) : Type :=
  | Ok (a : A)
  | Raise (e : exn).
Arguments Ok {A} a.
Arguments Raise {A} e.

#[global] Instance exn_eq_dec : EqDecision exn.
Proof. solve_decision. Defined.

#[global] Instance result_eq_dec `{EqDecision A} : EqDecision (result A).
Proof. solve_decision. Defined.

#[global] Instance result_ret : MRet result := λ A a, Ok a.
#[global] Instance result_bind : MBind result := λ A B f m,
  match m with
  | Ok a => f a
  | Raise e => Raise e
  end.

(** ** Numbers *)

Abbreviation float := Qc.

Definition of_int (z : Z) : float := Q2Qc (inject_Z z).

(** Python's [a / b] on floats (or on a float and an int). *)
Definition py_div (a b : float) : result float :=
  if decide (b = 0%Qc) then Raise ZeroDivisionError else Ok (a / b)%Qc.

(** ** Matrices: [np.array], [dot], slicing, stacking, [np.linalg.inv] *)

Definition matrix : Type := list (list float).

Definition ncols (B : matrix) : nat :=
  match B with
  | [] => 0%nat
  | row :: _ => length row
  end.

(** [is_mat r c A]: [A.shape == (r, c)]. *)
Definition is_mat (r c : nat) (A : matrix) : bool :=
  bool_decide (length A = r) && forallb (λ row, bool_decide (length row = c)) A.

Definition column (j : nat) (B : matrix) : list float :=
  map (λ row, nth j row 0%Qc) B.

Definition vdot (u v : list float) : float :=
  foldl Qcplus 0%Qc (zip_with Qcmult u v).

(** [A.dot(B)] for 2-D operands; numpy refuses operands whose inner
    dimensions differ. *)
Definition dot (A B : matrix) : result matrix :=
  if is_mat (length A) (length B) A && is_mat (length B) (ncols B) B
  then Ok (map (λ row, map (λ j, vdot row (column j B)) (seq 0 (ncols B))) A)
  else Raise ValueError.

(** [E[:-1,:]] *)
Definition drop_last_row (E : matrix) : matrix := removelast E.

(** [np.column_stack([R, t])] for a 2-D [R] and a 1-D [t]. *)
Definition column_stack (R : matrix) (t : list float) : result matrix :=
  if bool_decide (length R = length t)
  then Ok (zip_with (λ row x, row ++ [x]) R t)
  else Raise ValueError.

(** [np.row_stack([E, row])] *)
Definition row_stack (E : matrix) (row : list float) : result matrix :=
  if bool_decide (ncols E = length row) then Ok (E ++ [row]) else Raise ValueError.

(** [np.reshape(k, (3,3))] *)
Definition reshape33 (k : list float) : result matrix :=
  match k with
  | [a; b; c; d; e; f; g; h; i] => Ok [[a; b; c]; [d; e; f]; [g; h; i]]
  | _ => Raise ValueError
  end.

Definition det3 (A : matrix) : float :=
  match A with
  | [[a; b; c]; [d; e; f]; [g; h; i]] =>
      (a * (e * i - f * h) - b * (d * i - f * g) + c * (d * h - e * g))%Qc
  | _ => 0%Qc
  end.

(** [np.linalg.inv] in exact arithmetic: only the 3x3 case occurs (the
    operand is [P.dot(M)] with [M] of three columns and [P] of three rows),
    and the inverse is returned whenever there is one. On doubles the
    routine raises when its LU factorisation meets a zero pivot, which
    rounding can make differ from the exact test in either direction; so
    what is proved below about the homography is proved of the runs in
    which the inversion returns, or of the exception once it is raised,
    and nothing is concluded from a determinant. *)
Definition inv (A : matrix) : result matrix :=
  match A with
  | [[a; b; c]; [d; e; f]; [g; h; i]] =>
      let dt := det3 A in
      if decide (dt = 0%Qc) then Raise LinAlgError
      else Ok [[(e * i - f * h) / dt; (c * h - b * i) / dt; (b * f - c * e) / dt];
               [(f * g - d * i) / dt; (a * i - c * g) / dt; (c * d - a * f) / dt];
               [(d * h - e * g) / dt; (b * g - a * h) / dt; (a * e - b * d) / dt]]%Qc
  | _ => Raise LinAlgError
  end.


(** ** Configuration: [load_parameters] *)

Record Params : Type := {
  p_image_topics_in : list string;
  p_info_topics_in : list string;
  p_vehicle_base_link : string;
  p_px_per_m : Z;
  p_output_width : Z;
  p_output_height : Z
}.

(** The [config] dictionary; its five keys are fixed. *)
Record Config : Type := {
  px_per_m : Z;
  output_width : Z;
  output_height : Z;
  shift_x : float;
  shift_y : float
}.

Definition load_parameters (p : Params) : Config :=
  {| px_per_m := p_px_per_m p;
     output_width := p_output_width p;
     output_height := p_output_height p;
     (* shift to center of output image *)
     shift_x := (of_int (p_output_width p) / of_int 2)%Qc;
     shift_y := (of_int (p_output_height p) / of_int 2)%Qc |}.

(** ** The homography of [apply_ipm] (lines 98-118) *)

Definition M_2D_to_3D : matrix :=
  [[1; 0; 0];
   [0; 1; 0];
   [0; 0; 0];
   [0; 0; 1]]%Qc.

Definition M_direction : matrix :=
  [[1; 0; 0];
   [0; -(1); 0];
   [0; 0; 1]]%Qc.

Definition M_shift (cfg : Config) : matrix :=
  [[1; 0; - shift_x cfg];
   [0; 1; - shift_y cfg];
   [0; 0; 1]]%Qc.

Definition M_scale (cfg : Config) : result matrix :=
  sx ← py_div 1%Qc (of_int (px_per_m cfg));
  sy ← py_div 1%Qc (of_int (px_per_m cfg));
  Ok [[sx; 0; 0];
      [0; sy; 0];
      [0; 0; 1]]%Qc.

(** [M = (M_2D_to_3D).dot(M_scale).dot(M_direction.dot(M_shift))] *)
Definition road_to_vehicle (cfg : Config) : result matrix :=
  scale ← M_scale cfg;
  es ← dot M_2D_to_3D scale;
  ds ← dot M_direction (M_shift cfg);
  dot es ds.

(** [P.dot(M)] with [P = K.dot(E[:-1,:])]: the matrix that is inverted. *)
Definition projection_of_canvas (cfg : Config) (K E : matrix) : result matrix :=
  M ← road_to_vehicle cfg;
  P ← dot K (drop_last_row E);
  dot P M.

(** [M_ipm = np.linalg.inv(P.dot(M))] *)
Definition ipm_matrix (cfg : Config) (K E : matrix) : result matrix :=
  PM ← projection_of_canvas cfg K E;
  inv PM.

(** The canvas-to-road matrix [M] in closed form. *)
Definition road_matrix (cfg : Config) : matrix :=
  [[1 / of_int (px_per_m cfg); 0; - shift_x cfg / of_int (px_per_m cfg)];
   [0; - (1 / of_int (px_per_m cfg)); shift_y cfg / of_int (px_per_m cfg)];
   [0; 0; 0];
   [0; 0; 1]]%Qc.

(** [A.dot(v)] for a 1-D [v]: the image of a homogeneous point. *)
Definition mat_vec (A : matrix) (v : list float) : list float :=
  map (λ row, vdot row v) A.


(** ** Images *)

(** A [bgr8] pixel: blue, green, red, each a [uint8]. *)
Definition pixel : Type := (Z * Z * Z)%type.
Abbreviation image := (list (list pixel)).
(** A single-channel [uint8] array. *)
Abbreviation gray := (list (list Z)).

Definition black : pixel := (0, 0, 0).

(** [image.shape[0]] and [image.shape[1]] *)
Definition img_height {A} (img : list (list A)) : nat := length img.
Definition img_width {A} (img : list (list A)) : nat :=
  match img with
  | [] => 0%nat
  | row :: _ => length row
  end.

Definition has_shape {A} (h w : nat) (img : list (list A)) : Prop :=
  length img = h ∧ Forall (λ row, length row = w) img.

(** [np.zeros((h, w), dtype="uint8")] *)
Definition zeros2 (h w : nat) : gray := replicate h (replicate w 0).

(** [np.zeros((h, w, 3), np.uint8)]; numpy refuses negative dimensions. *)
Definition zeros3 (h w : Z) : result image :=
  if bool_decide (h < 0 ∨ w < 0) then Raise ValueError
  else Ok (replicate (Z.to_nat h) (replicate (Z.to_nat w) black)).

(** [cv2.rectangle(img, pt1, pt2, color, -1)]: the filled rectangle with
    opposite corners [pt1] and [pt2], both inclusive, clipped to the array. *)
Definition rectangle (img : gray) (pt1 pt2 : Z * Z) (color : Z) : gray :=
  let '(x1, y1) := pt1 in
  let '(x2, y2) := pt2 in
  imap (λ y row,
    imap (λ x v,
      if bool_decide (Z.min x1 x2 ≤ Z.of_nat x ≤ Z.max x1 x2
                      ∧ Z.min y1 y2 ≤ Z.of_nat y ≤ Z.max y1 y2)
      then color else v) row) img.

Definition and_px (p q : pixel) : pixel :=
  let '(b1, g1, r1) := p in
  let '(b2, g2, r2) := q in
  (Z.land b1 b2, Z.land g1 g2, Z.land r1 r2).

(** [cv2.bitwise_and(src1, src2, mask=mask)] into a fresh destination:
    the conjunction where the mask is non-zero, zero elsewhere. *)
Definition bitwise_and (src1 src2 : image) (mask : gray) : image :=
  zip_with (λ rows mrow,
    zip_with (λ pq m, if bool_decide (m = 0) then black else and_px pq.1 pq.2)
             (zip rows.1 rows.2) mrow)
    (zip src1 src2) mask.

(** Lines 92-96 of [apply_ipm]: mask upper half of the image. *)
Definition mask_upper_half (img : image) : image :=
  let input_img_height := Z.of_nat (img_height img) in
  let input_img_width := Z.of_nat (img_width img) in
  let mask := zeros2 (img_height img) (img_width img) in
  let mask := rectangle mask (0, input_img_height / 2)
                        (input_img_width, input_img_height) 255 in
  bitwise_and img img mask.

(** ** Boolean-mask indexing of an (h, w, 3) array *)

Abbreviation bmask := (list (list (bool * bool * bool))).

(** [img == (b, g, r)]: the tuple is broadcast along the channel axis and
    the comparison is element by element. *)
Definition eq_tuple (img : image) (t : pixel) : bmask :=
  map (map (λ px : pixel,
    (bool_decide (px.1.1 = t.1.1),
     bool_decide (px.1.2 = t.1.2),
     bool_decide (px.2 = t.2)))) img.

(** One axis of [a[mask]] on which the mask has entries: the array must
    have as many, or numpy raises [IndexError]. *)
Fixpoint select_axis {M A : Type} (sel : M → A → result (list Z))
    (ms : list M) (xs : list A) : result (list Z) :=
  match ms, xs with
  | [], [] => Ok []
  | m :: ms', x :: xs' =>
      here ← sel m x;
      rest ← select_axis sel ms' xs';
      Ok (here ++ rest)
  | _, _ => Raise IndexError
  end.

Definition select_px (m : bool * bool * bool) (p : pixel) : result (list Z) :=
  let '(mb, mg, mr) := m in
  let '(b, g, r) := p in
  Ok ((if mb then [b] else []) ++ (if mg then [g] else []) ++ (if mr then [r] else [])).

(** One row of [a[mask]]. numpy compares mask and array axis by axis and
    leaves out the axes on which the mask has length zero: a mask row
    without pixels goes with a row of any length and selects nothing. *)
Definition select_row (mrow : list (bool * bool * bool)) (row : list pixel)
    : result (list Z) :=
  match mrow with
  | [] => Ok []
  | _ :: _ => select_axis select_px mrow row
  end.

(** [a[mask]]: the selected elements, in C order. A list of rows does not
    tell how wide an array without rows is: [mask_width] is the second
    dimension of the mask, and an array without rows goes with any mask
    without rows. A mask without rows selects nothing; its second axis
    is still compared with the array's, unless it has length zero. *)
Definition getitem_mask (a : image) (m : bmask) (mask_width : nat)
    : result (list Z) :=
  match m with
  | [] =>
      match a with
      | [] => Ok []
      | row :: _ =>
          if bool_decide (mask_width = 0%nat ∨ mask_width = length row)
          then Ok [] else Raise IndexError
      end
  | _ :: _ => select_axis select_row m a
  end.

Fixpoint assign_axis {M A : Type} (asg : M → A → list Z → result (A * list Z))
    (ms : list M) (xs : list A) (vals : list Z) : result (list A * list Z) :=
  match ms, xs with
  | [], [] => Ok ([], vals)
  | m :: ms', x :: xs' =>
      r1 ← asg m x vals;
      r2 ← assign_axis asg ms' xs' r1.2;
      Ok (r1.1 :: r2.1, r2.2)
  | _, _ => Raise IndexError
  end.

Definition assign_ch (m : bool) (c : Z) (vals : list Z) : result (Z * list Z) :=
  if m then
    match vals with
    | v :: vs => Ok (v, vs)
    | [] => Raise ValueError
    end
  else Ok (c, vals).

Definition assign_px (m : bool * bool * bool) (p : pixel) (vals : list Z)
    : result (pixel * list Z) :=
  let '(mb, mg, mr) := m in
  let '(b, g, r) := p in
  rb ← assign_ch mb b vals;
  rg ← assign_ch mg g rb.2;
  rr ← assign_ch mr r rg.2;
  Ok ((rb.1, rg.1, rr.1), rr.2).

(** [a[mask] = vals]: the values go to the selected elements in C order;
    their number must be the number of selected elements. *)
Definition setitem_mask (a : image) (m : bmask) (vals : list Z) : result image :=
  r ← assign_axis (assign_axis assign_px) m a vals;
  match r.2 with
  | [] => Ok r.1
  | _ :: _ => Raise ValueError
  end.

(** Line 188:
    [bev_total_img[bev_total_img==(0,0,0)] = output_image[bev_total_img==(0,0,0)]];
    [width] is [bev_total_img.shape[1]]. *)
Definition adjust_bev (width : nat) (bev_total_img output_image : image)
    : result image :=
  vals ← getitem_mask output_image (eq_tuple bev_total_img (0, 0, 0)) width;
  setitem_mask bev_total_img (eq_tuple bev_total_img (0, 0, 0)) vals.

(** What line 188 amounts to on arrays of one shape. *)
Definition where_px (canvas view : pixel) : pixel :=
  let '(b, g, r) := canvas in
  let '(b', g', r') := view in
  (if bool_decide (b = 0) then b' else b,
   if bool_decide (g = 0) then g' else g,
   if bool_decide (r = 0) then r' else r).

Definition where_zero (canvas view : image) : image :=
  zip_with (zip_with where_px) canvas view.

(** Selecting from [b] under the mask of [a] and assigning the selection
    to [a] under the same mask amounts to [g a b] and uses up exactly the
    selected values. *)
Definition mask_step {M A : Type} (mk : A → M) (sel : M → A → result (list Z))
    (asg : M → A → list Z → result (A * list Z)) (g : A → A → A) (a b : A) : Prop :=
  ∃ l, sel (mk a) b = Ok l
       ∧ ∀ rest, asg (mk a) a (l ++ rest) = Ok (g a b, rest).

(** The channels of a pixel that are zero. *)
Definition zero_mask (px : pixel) : bool * bool * bool :=
  (bool_decide (px.1.1 = 0), bool_decide (px.1.2 = 0), bool_decide (px.2 = 0)).

(** ** Messages, collaborators and the node *)

Record Quaternion : Type := { q_x : float; q_y : float; q_z : float; q_w : float }.
Record Vector3 : Type := { v_x : float; v_y : float; v_z : float }.
Record Transform : Type := { rotation : Quaternion; translation : Vector3 }.

(** [sensor_msgs/Image]: the fields the node reads. *)
Record Image : Type := {
  img_frame_id : string;
  img_encoding : string;
  img_data : image
}.

(** [sensor_msgs/CameraInfo]: the fields the node reads. *)
Record CameraInfo : Type := {
  info_frame_id : string;
  k : list float
}.

(** The synchronizer hands the callback a flat tuple of messages. *)
Definition Msg : Type := (Image + CameraInfo)%type.

Definition header_frame_id (m : Msg) : string :=
  match m with
  | inl i => img_frame_id i
  | inr c => info_frame_id c
  end.

(** Library functions the node calls. *)
Record Externals : Type := {
  (** [tf_transformations.euler_from_quaternion] *)
  euler_from_quaternion : list float → float * float * float;
  np_cos : float → float;
  np_sin : float → float;
  (** [cv_bridge.imgmsg_to_cv2(msg, "bgr8")] *)
  imgmsg_to_cv2 : Image → result image;
  (** [cv_bridge.cv2_to_imgmsg(img, encoding="bgr8")] *)
  cv2_to_imgmsg : image → Image;
  (** [cv2.warpPerspective(src, M, dsize, ...)] *)
  warpPerspective : image → matrix → Z * Z → result image
}.

(** The state of the node that the callback reads and writes; [pub] is
    what has been published on [/BEV_image], oldest first. *)
Record IPM : Type := {
  config : Config;
  vehicle_base_link : string;
  tfBuffer : gmap (string * string) Transform;
  pub : list Image
}.

(** [self.tfBuffer.lookup_transform(target_frame, source_frame, time)] *)
Definition lookup_transform (self : IPM) (target_frame source_frame : string)
    : result Transform :=
  match tfBuffer self !! (target_frame, source_frame) with
  | Some t => Ok t
  | None => Raise LookupException
  end.

(** [self.pub.publish(msg)] *)
Definition publish (self : IPM) (msg : Image) : IPM :=
  {| config := config self;
     vehicle_base_link := vehicle_base_link self;
     tfBuffer := tfBuffer self;
     pub := pub self ++ [msg] |}.

(** ** [apply_ipm] *)

Definition apply_ipm (X : Externals) (self : IPM) (img : image) (K E : matrix)
    : result image :=
  let width := output_width (config self) in
  let height := output_height (config self) in
  let img := mask_upper_half img in
  M_ipm ← ipm_matrix (config self) K E;
  warpPerspective X img M_ipm (width, height).

(** ** [compute_bev] *)

(** Line 129: [[(args[i], args[i+1]) for i in range(0, len(args), 2)]] *)
Fixpoint images_with_info (args : list Msg) : result (list (Msg * Msg)) :=
  match args with
  | [] => Ok []
  | [_] => Raise IndexError
  | a :: b :: rest =>
      pairs ← images_with_info rest;
      Ok ((a, b) :: pairs)
  end.

(** Lines 141-173: the extrinsic matrix of a transform. *)
Definition extrinsic (X : Externals) (transform : Transform) : result matrix :=
  let quaternion := rotation transform in
  let quaternion := [q_x quaternion; q_y quaternion; q_z quaternion; q_w quaternion] in
  let '(roll, pitch, yaw) := euler_from_quaternion X quaternion in
  let Rz := [[np_cos X yaw; - np_sin X yaw; 0];
             [np_sin X yaw; np_cos X yaw; 0];
             [0; 0; 1]]%Qc in
  let Ry := [[np_cos X pitch; 0; np_sin X pitch];
             [0; 1; 0];
             [- np_sin X pitch; 0; np_cos X pitch]]%Qc in
  let Rx := [[1; 0; 0];
             [0; np_cos X roll; - np_sin X roll];
             [0; np_sin X roll; np_cos X roll]]%Qc in
  RyRx ← dot Ry Rx;
  R ← dot Rz RyRx;
  let t := translation transform in
  let t := [v_x t; v_y t; v_z t] in
  E ← column_stack R t;
  row_stack E [0; 0; 0; 1]%Qc.

(** Lines 137-186: one camera, from its two messages to its warped view.
    An [Image] has no [k] and a [CameraInfo] no pixel data: a message of
    the wrong kind ends in [AttributeError]. *)
Definition view_ipm (X : Externals) (self : IPM) (image_msg cam_info_msg : Msg)
    : result image :=
  transform ← lookup_transform self (header_frame_id cam_info_msg)
                               (vehicle_base_link self);
  E ← extrinsic X transform;
  K ← match cam_info_msg with
      | inr c => reshape33 (k c)
      | inl _ => Raise AttributeError
      end;
  img ← match image_msg with
        | inl i => imgmsg_to_cv2 X i
        | inr _ => Raise AttributeError
        end;
  apply_ipm X self img K E.

(** The [for] loop of lines 134-188. *)
Fixpoint bev_loop (X : Externals) (self : IPM) (bev_total_img : image)
    (pairs : list (Msg * Msg)) : result image :=
  match pairs with
  | [] => Ok bev_total_img
  | (image_msg, cam_info_msg) :: rest =>
      output_image ← view_ipm X self image_msg cam_info_msg;
      bev ← adjust_bev (Z.to_nat (output_width (config self)))
                       bev_total_img output_image;
      bev_loop X self bev rest
  end.

(** [Ok self']: the callback returned and [self'] is the node afterwards.
    [Raise e]: the exception left the callback before [publish] was
    reached; the node is as it was. *)
Definition compute_bev (X : Externals) (self : IPM) (args : list Msg) : result IPM :=
  pairs ← images_with_info args;
  bev0 ← zeros3 (output_height (config self)) (output_width (config self));
  bev_total_img ← bev_loop X self bev0 pairs;
  let msg := cv2_to_imgmsg X bev_total_img in
  Ok (publish self msg).

(** The tuple the synchronizer delivers for a list of cameras: image and
    camera info alternate (lines 58-65). *)
Definition sync_args (views : list (Image * CameraInfo)) : list Msg :=
  mjoin (map (λ v : Image * CameraInfo, [inl v.1; inr v.2]) views).

(** A camera's two messages as the loop sees them. *)
Definition as_pair (v : Image * CameraInfo) : Msg * Msg := (inl v.1, inr v.2).

(** Whether a camera's two messages yield a warped view. *)
Definition view_ok (X : Externals) (self : IPM) (v : Image * CameraInfo) : bool :=
  match view_ipm X self (inl v.1) (inr v.2) with
  | Ok _ => true
  | Raise _ => false
  end.

(** The union of a view that covers the columns [[0, k)] and one that
    covers the columns from [k] on. *)
Definition union_at (k : nat) (A B : image) : image :=
  zip_with (λ ra rb, take k ra ++ drop k rb) A B.

(** The two per-view failures of the specification, on the code: the
    transform lookup raises, or the construction of the homography fails,
    which it does when [np.linalg.inv] raises [LinAlgError]. *)
Definition pose_fails (self : IPM) (info : CameraInfo) : Prop :=
  lookup_transform self (info_frame_id info) (vehicle_base_link self)
  = Raise LookupException.

Definition inversion_raises (X : Externals) (self : IPM) (info : CameraInfo) : Prop :=
  ∃ tf E K,
    lookup_transform self (info_frame_id info) (vehicle_base_link self) = Ok tf
    ∧ extrinsic X tf = Ok E
    ∧ reshape33 (k info) = Ok K
    ∧ ipm_matrix (config self) K E = Raise LinAlgError.

(** ** The composition as the specification words it

    [ground_to_camera_pixel = K · E_top3rows · (embed · scale · flip · shift)],
    the inner product taken left to right. *)
Definition spec_ground_to_camera_pixel (cfg : Config) (K E : matrix) : result matrix :=
  scale ← M_scale cfg;
  es ← dot M_2D_to_3D scale;
  esf ← dot es M_direction;
  inner ← dot esf (M_shift cfg);
  KE ← dot K (drop_last_row E);
  dot KE inner.


(** ** Vocabulary of the calibration claims *)


Definition translation_part (E : matrix) : list float :=
  map (λ row, nth 3 row 0%Qc) (take 3 E).


(** An intrinsic matrix with a zero on its diagonal. *)
Definition zero_on_diagonal (K : matrix) : Prop :=
  match K with
  | [[a; _; _]; [_; e; _]; [_; _; i]] => a = 0%Qc ∨ e = 0%Qc ∨ i = 0%Qc
  | _ => False
  end.



Definition identity4 : matrix :=
  [[1; 0; 0; 0]; [0; 1; 0; 0]; [0; 0; 1; 0]; [0; 0; 0; 1]]%Qc.

(** ** A bench of exact collaborators

    Level cameras only: every orientation on the bench is the identity
    quaternion, whose Euler angles are 0, and [cos 0 = 1], [sin 0 = 0] are
    exact. The warp samples the nearest source pixel and takes the
    background where there is none. *)
Module Bench.

Definition nearest (q : float) : Z := Qfloor (q + 1 / of_int 2)%Qc.

Definition sample (src : image) (H : matrix) (x y : Z) : pixel :=
  match mat_vec H [of_int x; of_int y; 1%Qc] with
  | [X; Y; W] =>
      if decide (W = 0%Qc) then black
      else
        let sx := nearest (X / W)%Qc in
        let sy := nearest (Y / W)%Qc in
        if bool_decide (0 ≤ sx ∧ 0 ≤ sy)
        then default black (src !! Z.to_nat sy ≫= λ row, row !! Z.to_nat sx)
        else black
  | _ => black
  end.

(** Without [WARP_INVERSE_MAP] the matrix handed to the warp goes from
    source to destination and is inverted for sampling. *)
Definition warp (src : image) (M : matrix) (dsize : Z * Z) : result image :=
  let '(w, h) := dsize in
  if bool_decide (0 < w ∧ 0 < h) then
    match inv M with
    | Ok H =>
        Ok (map (λ y, map (λ x, sample src H (Z.of_nat x) (Z.of_nat y))
                          (seq 0 (Z.to_nat w)))
                (seq 0 (Z.to_nat h)))
    | Raise _ => Raise Cv2Error
    end
  else Raise Cv2Error.

Definition decode (msg : Image) : result image :=
  if bool_decide (img_encoding msg = "bgr8") then Ok (img_data msg)
  else Raise CvBridgeError.

Definition encode (img : image) : Image :=
  {| img_frame_id := EmptyString; img_encoding := "bgr8"; img_data := img |}.

Definition X : Externals :=
  {| euler_from_quaternion := λ _, (0, 0, 0)%Qc;
     np_cos := λ _, 1%Qc;
     np_sin := λ _, 0%Qc;
     imgmsg_to_cv2 := decode;
     cv2_to_imgmsg := encode;
     warpPerspective := warp |}.

(** A camera one metre above the vehicle origin, looking down. *)
Definition overhead : Transform :=
  {| rotation := {| q_x := 0; q_y := 0; q_z := 0; q_w := 1 |}%Qc;
     translation := {| v_x := 0; v_y := 0; v_z := 1 |}%Qc |}.

(** A camera whose centre is the vehicle origin, on the ground plane. *)
Definition grounded : Transform :=
  {| rotation := {| q_x := 0; q_y := 0; q_z := 0; q_w := 1 |}%Qc;
     translation := {| v_x := 0; v_y := 0; v_z := 0 |}%Qc |}.

(** A two-by-one canvas at one pixel per metre. *)
Definition params : Params :=
  {| p_image_topics_in := ["/a/image"; "/b/image"];
     p_info_topics_in := ["/a/info"; "/b/info"];
     p_vehicle_base_link := "base_link";
     p_px_per_m := 1;
     p_output_width := 2;
     p_output_height := 1 |}.

Definition node : IPM :=
  {| config := load_parameters params;
     vehicle_base_link := "base_link";
     tfBuffer := {[ ("cam_a", "base_link") := overhead;
                    ("cam_b", "base_link") := overhead;
                    ("cam_g", "base_link") := grounded ]};
     pub := [] |}.

(** Unit focal lengths, principal point [(1, 1/2)]. *)
Definition k_unit : list float :=
  [1; 0; 1; 0; 1; 1 / of_int 2; 0; 0; 1]%Qc.

(** The same with a zero focal length in [x]. *)
Definition k_degenerate : list float :=
  [0; 0; 1; 0; 1; 1 / of_int 2; 0; 0; 1]%Qc.

Definition cam_info (frame : string) (k : list float) : CameraInfo :=
  {| info_frame_id := frame; k := k |}.

Definition uniform (frame : string) (p : pixel) : Image :=
  {| img_frame_id := frame; img_encoding := "bgr8";
     img_data := [[p; p]; [p; p]] |}.

Definition lower_row (frame : string) (p q : pixel) : Image :=
  {| img_frame_id := frame; img_encoding := "bgr8";
     img_data := [[black; black]; [p; q]] |}.

Definition blue : pixel := (255, 0, 0).
Definition green : pixel := (0, 255, 0).

(** Two cameras that see the whole canvas, one all blue, one all green. *)
Definition cam_a_blue : Image * CameraInfo := (uniform "cam_a" blue, cam_info "cam_a" k_unit).
Definition cam_b_green : Image * CameraInfo := (uniform "cam_b" green, cam_info "cam_b" k_unit).

(** Two cameras that see one half of the canvas each. *)
Definition cam_a_left : Image * CameraInfo :=
  (lower_row "cam_a" blue black, cam_info "cam_a" k_unit).
Definition cam_b_right : Image * CameraInfo :=
  (lower_row "cam_b" black green, cam_info "cam_b" k_unit).

(** A camera the transform buffer does not know, one on the ground plane,
    and one with a zero focal length. *)
Definition cam_lost : Image * CameraInfo := (uniform "cam_c" blue, cam_info "cam_c" k_unit).
Definition cam_grounded : Image * CameraInfo := (uniform "cam_g" blue, cam_info "cam_g" k_unit).
Definition cam_degenerate : Image * CameraInfo :=
  (uniform "cam_a" blue, cam_info "cam_a" k_degenerate).

(** A permuted intrinsic matrix: zeros on the diagonal, determinant -1. *)
Definition k_permuted : list float :=
  [0; 1; - (1 / of_int 2); 1; 0; of_int 2; 0; 0; 1]%Qc.
Definition cam_permuted : Image * CameraInfo :=
  (uniform "cam_a" blue, cam_info "cam_a" k_permuted).

(** A source image of five rows. *)
Definition tall : image :=
  [[blue; blue]; [green; green]; [blue; green]; [green; blue]; [blue; blue]].

(** A four-by-six canvas at two pixels per metre, and a camera for it. *)
Definition wide_params : Params :=
  {| p_image_topics_in := ["/a/image"];
     p_info_topics_in := ["/a/info"];
     p_vehicle_base_link := "base_link";
     p_px_per_m := 2;
     p_output_width := 4;
     p_output_height := 6 |}.

Definition K_wide : matrix :=
  [[of_int 2; 0; 1]; [0; of_int 3; 1]; [0; 0; 1]]%Qc.

Definition E_overhead : matrix :=
  [[1; 0; 0; 0]; [0; 1; 0; 0]; [0; 0; 1; 1]; [0; 0; 0; 1]]%Qc.


End Bench.

(** ** [__init__]: the subscribers (lines 57-65) *)

Inductive Subscriber : Type :=
  | ImageSubscriber (topic : string)
  | CameraInfoSubscriber (topic : string).

(** The loop over [zip(self.image_topics_in, self.info_topics_in)] that
    appends an image subscriber and then a camera info subscriber. *)
Definition init_subs (image_topics_in info_topics_in : list string)
    : list Subscriber :=
  foldl (λ subs (topics : string * string),
           (subs ++ [ImageSubscriber topics.1]) ++ [CameraInfoSubscriber topics.2])
        [] (zip image_topics_in info_topics_in).

(** ** Reading a composite *)

Inductive channel : Set := Blue | Green | Red.

Definition chan (c : channel) (p : pixel) : Z :=
  match c with
  | Blue => p.1.1
  | Green => p.1.2
  | Red => p.2
  end.

(** [img[r, c]], background outside the array. *)
Definition pixel_at (img : image) (r c : nat) : pixel :=
  default black (img !! r ≫= λ row, row !! c).

(** The first value of a list that is not zero, zero if there is none. *)
Fixpoint first_nonzero (l : list Z) : Z :=
  match l with
  | [] => 0
  | x :: l' => if bool_decide (x = 0) then first_nonzero l' else x
  end.

(** Row by row, the first array's row is empty or as long as the
    second's: what numpy asks of a mask and an array with as many rows. *)
Definition rows_fit {A B} (a : list (list A)) (b : list (list B)) : Prop :=
  Forall2 (λ ra rb, ra = [] ∨ length ra = length rb) a b.

(** Two arrays with as many rows, row by row of one length. *)
Definition same_rows {A B} (a : list (list A)) (b : list (list B)) : Prop :=
  Forall2 (λ ra rb, length ra = length rb) a b.

(** * Properties *)

(** ** The error monad *)

Lemma bind_Ok {A B} (f : A → result B) (m : result A) (b : B) :
  m ≫= f = Ok b → ∃ a, m = Ok a ∧ f a = Ok b.
Proof. destruct m as [a|e]; [eauto | discriminate]. Qed.

Lemma bind_Ok_l {A B} (f : A → result B) (a : A) : Ok a ≫= f = f a.
Proof. reflexivity. Qed.

(** ** Numbers and matrices *)

Lemma of_int_eq0 z : of_int z = 0%Qc ↔ z = 0.
Proof.
  unfold of_int. rewrite Q2Qc_eq_iff. unfold Qeq, inject_Z; simpl. lia.
Qed.

Lemma py_div_ok a b : b ≠ 0%Qc → py_div a b = Ok (a / b)%Qc.
Proof. intros Hb. unfold py_div. by case_decide. Qed.

Lemma py_div_zero a : py_div a 0%Qc = Raise ZeroDivisionError.
Proof. unfold py_div. by case_decide. Qed.

(** Unfold the list machinery of [dot] and friends, leaving the rational
    arithmetic alone. *)
Ltac mcompute :=
  cbv -[Qcplus Qcmult Qcopp Qcminus Qcdiv Qcinv Q2Qc of_int Qcanon.this].










Lemma road_to_vehicle_ok cfg :
  px_per_m cfg ≠ 0 → road_to_vehicle cfg = Ok (road_matrix cfg).
Proof.
  intros Hp. assert (Hq : of_int (px_per_m cfg) ≠ 0%Qc) by (by rewrite of_int_eq0).
  unfold road_to_vehicle, M_scale, road_matrix. rewrite (py_div_ok _ _ Hq).
  mcompute.
  f_equal. repeat (f_equal; try (field; exact Hq)).
Qed.

Lemma road_to_vehicle_zero cfg :
  px_per_m cfg = 0 → road_to_vehicle cfg = Raise ZeroDivisionError.
Proof.
  intros Hp. unfold road_to_vehicle, M_scale. rewrite Hp.
  replace (of_int 0) with 0%Qc by (symmetry; by apply of_int_eq0).
  by rewrite py_div_zero.
Qed.

Lemma road_to_vehicle_Ok_inv cfg M :
  road_to_vehicle cfg = Ok M → px_per_m cfg ≠ 0.
Proof. intros H Hp. by rewrite (road_to_vehicle_zero _ Hp) in H. Qed.

Lemma spec_composition_unfold cfg K E :
  px_per_m cfg ≠ 0 →
  spec_ground_to_camera_pixel cfg K E
  = dot K (drop_last_row E) ≫= λ KE, dot KE (road_matrix cfg).
Proof.
  intros Hp. assert (Hq : of_int (px_per_m cfg) ≠ 0%Qc) by (by rewrite of_int_eq0).
  unfold spec_ground_to_camera_pixel, M_scale. rewrite (py_div_ok _ _ Hq).
  rewrite !bind_Ok_l.
  set (s := (1 / of_int (px_per_m cfg))%Qc).
  assert (dot M_2D_to_3D [[s; 0; 0]; [0; s; 0]; [0; 0; 1]]%Qc
          = Ok [[s; 0; 0]; [0; s; 0]; [0; 0; 0]; [0; 0; 1]]%Qc) as ->.
  { clearbody s. mcompute. repeat (f_equal; try ring). }
  rewrite bind_Ok_l.
  assert (dot [[s; 0; 0]; [0; s; 0]; [0; 0; 0]; [0; 0; 1]]%Qc M_direction
          = Ok [[s; 0; 0]; [0; - s; 0]; [0; 0; 0]; [0; 0; 1]]%Qc) as ->.
  { clearbody s. mcompute. repeat (f_equal; try ring). }
  rewrite bind_Ok_l.
  assert (dot [[s; 0; 0]; [0; - s; 0]; [0; 0; 0]; [0; 0; 1]]%Qc (M_shift cfg)
          = Ok (road_matrix cfg)) as ->.
  { subst s. unfold road_matrix. mcompute. repeat (f_equal; try (field; exact Hq)). }
  by rewrite bind_Ok_l.
Qed.

Lemma projection_of_canvas_unfold cfg K E :
  px_per_m cfg ≠ 0 →
  projection_of_canvas cfg K E
  = dot K (drop_last_row E) ≫= λ P, dot P (road_matrix cfg).
Proof.
  intros Hp. unfold projection_of_canvas. by rewrite road_to_vehicle_ok.
Qed.

(** The code's association [(embed·scale)·(flip·shift)] and the flat
    product of the specification give the same matrix, and raise alike. *)
Lemma projection_of_canvas_spec cfg K E :
  projection_of_canvas cfg K E = spec_ground_to_camera_pixel cfg K E.
Proof.
  destruct (decide (px_per_m cfg = 0)) as [Hp|Hp].
  - unfold projection_of_canvas, spec_ground_to_camera_pixel, M_scale.
    rewrite (road_to_vehicle_zero _ Hp), Hp.
    replace (of_int 0) with 0%Qc by (symmetry; by apply of_int_eq0).
    by rewrite py_div_zero.
  - by rewrite projection_of_canvas_unfold, spec_composition_unfold.
Qed.







(** Concrete equalities and disequalities are decided by evaluation. *)
Ltac by_eval := apply (bool_decide_eq_true_1 _); vm_compute; reflexivity.

Lemma ipm_matrix_spec cfg K E :
  ipm_matrix cfg K E = spec_ground_to_camera_pixel cfg K E ≫= inv.
Proof. unfold ipm_matrix. by rewrite projection_of_canvas_spec. Qed.








(** C10. Whatever the parameters, [load_parameters] sets the shift to
    [(output_width / 2, output_height / 2)], and the canvas-to-road matrix
    [M], whenever it is built, subtracts that shift from the canvas pixel
    before dividing by [px_per_m]: the canvas centre goes to the vehicle
    origin [(0, 0)] on the ground, and the centre of the left edge to
    [(-(output_width / 2) / px_per_m, 0)]. *)
Theorem shift_is_canvas_centre (p : Params) (M : matrix) :
  road_to_vehicle (load_parameters p) = Ok M →
  let cfg := load_parameters p in
  let w := of_int (output_width cfg) in
  let h := of_int (output_height cfg) in
  let ppm := of_int (px_per_m cfg) in
  shift_x cfg = (w / of_int 2)%Qc
  ∧ shift_y cfg = (h / of_int 2)%Qc
  ∧ (∀ x y : float,
       mat_vec M [x; y; 1%Qc]
       = [(x - w / of_int 2) / ppm; - ((y - h / of_int 2) / ppm); 0; 1]%Qc)
  ∧ mat_vec M [w / of_int 2; h / of_int 2; 1]%Qc = [0; 0; 0; 1]%Qc
  ∧ mat_vec M [0; h / of_int 2; 1]%Qc = [- (w / of_int 2) / ppm; 0; 0; 1]%Qc.
Proof.
  intros HM cfg w h ppm.
  pose proof (road_to_vehicle_Ok_inv _ _ HM) as Hp.
  rewrite (road_to_vehicle_ok _ Hp) in HM. injection HM as <-.
  assert (Hq : ppm ≠ 0%Qc) by (subst ppm; by rewrite of_int_eq0).
  assert (H2 : of_int 2 ≠ 0%Qc) by (by rewrite of_int_eq0).
  split; [reflexivity|]. split; [reflexivity|].
  assert (Hgen : ∀ x y : float,
            mat_vec (road_matrix (load_parameters p)) [x; y; 1%Qc]
            = [(x - w / of_int 2) / ppm; - ((y - h / of_int 2) / ppm); 0; 1]%Qc).
  { intros x y. unfold road_matrix. subst w h ppm cfg. mcompute.
    repeat (f_equal; try (field; split; assumption)). }
  split; [exact Hgen|]. split.
  - rewrite Hgen. repeat (f_equal; try (field; split; assumption)).
  - rewrite Hgen. repeat (f_equal; try (field; split; assumption)).
Qed.

Lemma shift_is_canvas_centre_witness :
  shift_x (load_parameters Bench.wide_params) = of_int 2
  ∧ shift_y (load_parameters Bench.wide_params) = of_int 3
  ∧ mat_vec (road_matrix (load_parameters Bench.wide_params))
      [of_int 4 / of_int 2; of_int 6 / of_int 2; 1]%Qc
    = [0; 0; 0; 1]%Qc.
Proof.
  destruct (shift_is_canvas_centre Bench.wide_params
              (road_matrix (load_parameters Bench.wide_params)))
    as (Hx & Hy & _ & Hcentre & _).
  - apply road_to_vehicle_ok. vm_compute. discriminate.
  - split; [rewrite Hx; by_eval|]. split; [rewrite Hy; by_eval|].
    exact Hcentre.
Defined.

(** ** Boolean-mask assignment is an element-wise choice *)

Lemma mask_axis_lift {M A : Type} (mk : A → M) sel asg (g : A → A → A) xs ys :
  Forall2 (mask_step mk sel asg g) xs ys →
  mask_step (map mk) (select_axis sel) (assign_axis asg) (zip_with g) xs ys.
Proof.
  unfold mask_step.
  induction 1 as [|a b xs ys (l & Hsel & Hasg) _ (ls & Hsels & Hasgs)].
  - exists []. split; [reflexivity|]. intros rest. reflexivity.
  - exists (l ++ ls). simpl. rewrite Hsel, Hsels. split; [reflexivity|].
    intros rest. rewrite <- app_assoc, Hasg. simpl. by rewrite Hasgs.
Qed.

Lemma eq_tuple_zero img : eq_tuple img (0, 0, 0) = map (map zero_mask) img.
Proof. reflexivity. Qed.

Lemma mask_step_px (a b : pixel) :
  mask_step zero_mask select_px assign_px where_px a b.
Proof.
  destruct a as [[a1 a2] a3], b as [[b1 b2] b3].
  unfold mask_step, zero_mask, select_px, assign_px, where_px; simpl.
  eexists. split; [reflexivity|]. intros rest.
  repeat case_bool_decide; reflexivity.
Qed.

Lemma mask_step_row (ra rb : list pixel) :
  ra = [] ∨ length ra = length rb →
  mask_step (map zero_mask) select_row (assign_axis assign_px)
            (zip_with where_px) ra rb.
Proof.
  intros [-> | Hlen].
  - exists []. split; [reflexivity|]. intros rest. reflexivity.
  - destruct ra as [|p ra].
    + exists []. split; [reflexivity|]. intros rest. reflexivity.
    + change (select_row (map zero_mask (p :: ra)))
        with (select_axis select_px (map zero_mask (p :: ra))).
      apply mask_axis_lift.
      apply Forall2_same_length_lookup_2; [done|]. intros. apply mask_step_px.
Qed.

Lemma has_shape_rows {A} h w (a b : list (list A)) :
  has_shape h w a → has_shape h w b →
  Forall2 (λ ra rb, length ra = length rb) a b.
Proof.
  intros [Ha Hra] [Hb Hrb].
  apply Forall2_same_length_lookup_2; [congruence|].
  intros i ra rb Hia Hib.
  rewrite Forall_lookup in Hra, Hrb.
  by rewrite (Hra _ _ Hia), (Hrb _ _ Hib).
Qed.

Lemma getitem_mask_rows (canvas view : image) width :
  canvas ≠ [] →
  getitem_mask view (eq_tuple canvas (0, 0, 0)) width
  = select_axis select_row (map (map zero_mask) canvas) view.
Proof. by destruct canvas. Qed.

Lemma setitem_mask_step (canvas view : image) l :
  (∀ rest, assign_axis (assign_axis assign_px) (map (map zero_mask) canvas)
             canvas (l ++ rest) = Ok (where_zero canvas view, rest)) →
  setitem_mask canvas (eq_tuple canvas (0, 0, 0)) l = Ok (where_zero canvas view).
Proof.
  intros Hasg. unfold setitem_mask. rewrite eq_tuple_zero.
  specialize (Hasg []). rewrite app_nil_r in Hasg. by rewrite Hasg.
Qed.

(** Line 188 where the rows of the canvas fit those of the view: every
    channel of the canvas that is zero takes the view's channel, every
    other channel stays. *)
Lemma adjust_bev_fits width (canvas view : image) :
  canvas ≠ [] → rows_fit canvas view →
  adjust_bev width canvas view = Ok (where_zero canvas view).
Proof.
  intros Hne Hfit.
  assert (Hstep : mask_step (map (map zero_mask)) (select_axis select_row)
                    (assign_axis (assign_axis assign_px))
                    (zip_with (zip_with where_px)) canvas view).
  { apply mask_axis_lift. eapply Forall2_impl; [exact Hfit|].
    intros ra rb H. by apply mask_step_row. }
  destruct Hstep as (l & Hsel & Hasg).
  unfold adjust_bev. rewrite (getitem_mask_rows _ _ _ Hne), Hsel, bind_Ok_l.
  by apply setitem_mask_step.
Qed.

(** A canvas without rows: nothing is selected and nothing assigned. *)
Lemma adjust_bev_nil width (view : image) :
  view = [] ∨ width = 0%nat ∨ width = img_width view →
  adjust_bev width [] view = Ok [].
Proof.
  unfold adjust_bev, getitem_mask. simpl.
  destruct view as [|row view]; [done|]. intros [H|H]; [done|].
  simpl in H. by rewrite bool_decide_eq_true_2.
Qed.

Lemma adjust_bev_same_rows width (canvas view : image) :
  same_rows canvas view → adjust_bev width canvas view = Ok (where_zero canvas view).
Proof.
  intros Hrows. destruct canvas as [|row canvas].
  - apply Forall2_nil_inv_l in Hrows as ->. by apply adjust_bev_nil; left.
  - apply adjust_bev_fits; [done|].
    eapply Forall2_impl; [exact Hrows|]. intros ra rb H. by right.
Qed.

(** Line 188 on arrays of one shape. *)
Lemma adjust_bev_where width h w (canvas view : image) :
  has_shape h w canvas → has_shape h w view →
  adjust_bev width canvas view = Ok (where_zero canvas view).
Proof.
  intros Hc Hv. apply adjust_bev_same_rows. by eapply has_shape_rows.
Qed.

Lemma select_axis_length {M A} (sel : M → A → result (list Z)) ms xs l :
  select_axis sel ms xs = Ok l → length ms = length xs.
Proof.
  revert xs l. induction ms as [|m ms IH]; intros [|x xs] l; simpl; try done.
  destruct (sel m x); [|done]. simpl.
  destruct (select_axis sel ms xs) eqn:Hrest; [|done].
  intros _. f_equal. by eapply IH.
Qed.

Lemma select_axis_Forall2 {M A} (sel : M → A → result (list Z)) ms xs l :
  select_axis sel ms xs = Ok l →
  Forall2 (λ m x, ∃ l', sel m x = Ok l') ms xs.
Proof.
  revert xs l. induction ms as [|m ms IH]; intros [|x xs] l; simpl; try done.
  destruct (sel m x) as [here|] eqn:Hsel; [|done]. simpl.
  destruct (select_axis sel ms xs) as [rest|] eqn:Hrest; [|done].
  intros _. constructor; [by eexists | by eapply IH].
Qed.

Lemma select_axis_Raise {M A} (sel : M → A → result (list Z)) ms xs e :
  (∀ m x e', sel m x = Raise e' → e' = IndexError) →
  select_axis sel ms xs = Raise e → e = IndexError.
Proof.
  intros Hsel. revert xs.
  induction ms as [|m ms IH]; intros [|x xs]; simpl.
  - discriminate.
  - by intros [= <-].
  - by intros [= <-].
  - destruct (sel m x) as [here|e'] eqn:Hm; simpl.
    + destruct (select_axis sel ms xs) as [rest|e''] eqn:Hrest; simpl.
      * discriminate.
      * intros [= <-]. by eapply IH.
    + intros [= <-]. by eapply Hsel.
Qed.

Lemma select_row_Ok mrow (row : list pixel) l :
  select_row mrow row = Ok l → mrow = [] ∨ length mrow = length row.
Proof.
  destruct mrow as [|m mrow]; [by left|]. intros H. right.
  by eapply select_axis_length.
Qed.

Lemma select_row_Raise mrow (row : list pixel) e :
  select_row mrow row = Raise e → e = IndexError.
Proof.
  destruct mrow as [|m mrow]; [done|]. apply select_axis_Raise.
  intros [[? ?] ?] [[? ?] ?] ?. discriminate.
Qed.

(** When line 188 goes through, it is the channel-wise choice and the
    rows of the canvas fit those of the view. *)
Lemma adjust_bev_Ok_inv width (canvas view bev : image) :
  adjust_bev width canvas view = Ok bev →
  bev = where_zero canvas view ∧ (canvas = [] ∨ rows_fit canvas view).
Proof.
  intros H. destruct canvas as [|row canvas].
  - split; [|by left]. revert H. unfold adjust_bev, getitem_mask. simpl.
    destruct view as [|vrow view]; simpl; [by intros [= <-]|].
    case_bool_decide; simpl; [by intros [= <-] | done].
  - assert (Hfit : rows_fit (row :: canvas) view).
    { unfold adjust_bev in H. rewrite getitem_mask_rows in H by done.
      destruct (select_axis select_row _ view) as [l|] eqn:Hsel; [|done].
      apply select_axis_Forall2 in Hsel. apply Forall2_fmap_l in Hsel.
      eapply Forall2_impl; [exact Hsel|]. intros ra rb [l' Hl'].
      apply select_row_Ok in Hl' as [Hnil | Hlen].
      - left. by apply map_eq_nil in Hnil.
      - right. by rewrite length_map in Hlen. }
    split; [|by right].
    rewrite (adjust_bev_fits width (row :: canvas) view ltac:(done) Hfit) in H. congruence.
Qed.

(** Line 188 raises nothing but [IndexError]. *)
Lemma adjust_bev_Raise width (canvas view : image) e :
  adjust_bev width canvas view = Raise e → e = IndexError.
Proof.
  intros H. destruct canvas as [|row canvas].
  - revert H. unfold adjust_bev, getitem_mask. simpl.
    destruct view as [|vrow view]; simpl; [done|].
    case_bool_decide; simpl; [done | by intros [= <-]].
  - unfold adjust_bev in H. rewrite getitem_mask_rows in H by done.
    destruct (select_axis select_row _ view) as [l|e'] eqn:Hsel.
    + assert (Hfit : rows_fit (row :: canvas) view).
      { apply select_axis_Forall2 in Hsel. apply Forall2_fmap_l in Hsel.
        eapply Forall2_impl; [exact Hsel|]. intros ra rb [l' Hl'].
        apply select_row_Ok in Hl' as [Hnil | Hlen].
        - left. by apply map_eq_nil in Hnil.
        - right. by rewrite length_map in Hlen. }
      pose proof (adjust_bev_fits width (row :: canvas) view ltac:(done) Hfit) as Hok.
      unfold adjust_bev in Hok. rewrite getitem_mask_rows in Hok by done.
      rewrite Hsel in Hok. rewrite Hok in H. discriminate.
    + simpl in H. injection H as <-.
      eapply select_axis_Raise; [|exact Hsel]. intros m x e''.
      apply select_row_Raise.
Qed.

Lemma where_px_black_l (p : pixel) : where_px black p = p.
Proof. by destruct p as [[? ?] ?]. Qed.

Lemma where_px_black_r (p : pixel) : where_px p black = p.
Proof.
  destruct p as [[b g] r]. unfold where_px, black.
  repeat case_bool_decide; congruence.
Qed.

Lemma where_row_black_l (ra rb : list pixel) :
  length ra = length rb → Forall (eq black) ra → zip_with where_px ra rb = rb.
Proof.
  revert rb. induction ra as [|p ra IH]; intros [|q rb] Hlen Hall; try done.
  apply Forall_cons in Hall as [<- Hall].
  change (where_px black q :: zip_with where_px ra rb = q :: rb).
  rewrite where_px_black_l. f_equal. apply IH; [by injection Hlen | done].
Qed.

Lemma where_row_black_r (ra rb : list pixel) :
  length ra = length rb → Forall (eq black) rb → zip_with where_px ra rb = ra.
Proof.
  revert rb. induction ra as [|p ra IH]; intros [|q rb] Hlen Hall; try done.
  apply Forall_cons in Hall as [<- Hall].
  change (where_px p black :: zip_with where_px ra rb = p :: ra).
  rewrite where_px_black_r. f_equal. apply IH; [by injection Hlen | done].
Qed.

Lemma has_shape_replicate {A} h w (x : A) :
  has_shape h w (replicate h (replicate w x)).
Proof.
  split; [by rewrite length_replicate|].
  apply Forall_replicate. by rewrite length_replicate.
Qed.

(** The first view lands on the fresh canvas unchanged. *)
Lemma where_zero_fresh h w (view : image) :
  has_shape h w view →
  where_zero (replicate h (replicate w black)) view = view.
Proof.
  intros [Hlen Hrows]. unfold where_zero. subst h.
  induction view as [|row view IH]; [done|].
  apply Forall_cons in Hrows as [Hrow Hrows]. simpl. f_equal; [|by apply IH].
  apply where_row_black_l; [by rewrite length_replicate|].
  by apply Forall_replicate.
Qed.

Lemma zeros3_ok (h w : nat) :
  zeros3 (Z.of_nat h) (Z.of_nat w) = Ok (replicate h (replicate w black)).
Proof.
  unfold zeros3. case_bool_decide; [lia|]. by rewrite !Nat2Z.id.
Qed.

Lemma images_with_info_sync views :
  images_with_info (sync_args views)
  = Ok (map as_pair views).
Proof.
  induction views as [|v views IH]; [done|].
  unfold sync_args in *. simpl. by rewrite IH.
Qed.

(** ** The stitching loop *)

Lemma bev_loop_cons X self canvas v rest :
  bev_loop X self canvas (as_pair v :: rest)
  = view_ipm X self (inl v.1) (inr v.2) ≫= λ output_image,
    adjust_bev (Z.to_nat (output_width (config self))) canvas output_image
    ≫= λ bev, bev_loop X self bev rest.
Proof. reflexivity. Qed.

Lemma compute_bev_sync X self views :
  compute_bev X self (sync_args views)
  = zeros3 (output_height (config self)) (output_width (config self)) ≫= λ bev0,
    bev_loop X self bev0 (map as_pair views) ≫= λ bev,
    Ok (publish self (cv2_to_imgmsg X bev)).
Proof. unfold compute_bev. by rewrite images_with_info_sync. Qed.

(** A view that raises ends the loop, whatever came before it. *)
Lemma bev_loop_raise X self views v e canvas :
  In v views → view_ipm X self (inl v.1) (inr v.2) = Raise e →
  ∃ e', bev_loop X self canvas (map as_pair views) = Raise e'.
Proof.
  intros Hin Hv. revert canvas.
  induction views as [|u views IH]; intros canvas; [by destruct Hin|].
  rewrite map_cons, bev_loop_cons.
  destruct (view_ipm X self (inl u.1) (inr u.2)) as [out|e1] eqn:Hu; [|by eexists].
  rewrite bind_Ok_l.
  destruct (adjust_bev _ canvas out) as [bev|e2]; [|by eexists].
  rewrite bind_Ok_l.
  destruct Hin as [-> | Hin]; [congruence | by apply IH].
Qed.

Lemma compute_bev_raise X self views v e :
  In v views → view_ipm X self (inl v.1) (inr v.2) = Raise e →
  ∃ e', compute_bev X self (sync_args views) = Raise e'.
Proof.
  intros Hin Hv. rewrite compute_bev_sync.
  destruct (zeros3 _ _) as [bev0|e0]; [|by eexists].
  rewrite bind_Ok_l.
  destruct (bev_loop_raise X self views v e bev0 Hin Hv) as [e' ->].
  by eexists.
Qed.

Lemma view_ipm_pose_fails X self img info :
  pose_fails self info → view_ipm X self (inl img) (inr info) = Raise LookupException.
Proof. unfold pose_fails, view_ipm. simpl. by intros ->. Qed.

Lemma view_ipm_inversion_raises X self img info :
  inversion_raises X self info →
  ∃ e, view_ipm X self (inl img) (inr info) = Raise e.
Proof.
  intros (tf & E & K & Htf & HE & HK & Hipm).
  unfold view_ipm. simpl. rewrite Htf, bind_Ok_l, HE, bind_Ok_l, HK, bind_Ok_l.
  destruct (imgmsg_to_cv2 X img) as [image|e]; [|by eexists].
  rewrite bind_Ok_l. unfold apply_ipm. rewrite Hipm. by eexists.
Qed.

(** C2 (amended). No per-view failure is recovered inside a frame: when
    the pose lookup raises for a camera of the frame, or the construction
    of its homography fails because [np.linalg.inv] raises [LinAlgError]
    on the composed matrix, [compute_bev] raises and the frame is not
    published; no view is dropped and the other views are not
    composited. *)
Theorem view_failure_aborts_frame X self views img info :
  In (img, info) views →
  pose_fails self info ∨ inversion_raises X self info →
  ∃ e, compute_bev X self (sync_args views) = Raise e.
Proof.
  intros Hin [Hpose | Hinv].
  - eapply compute_bev_raise; [exact Hin|]. by apply view_ipm_pose_fails.
  - destruct (view_ipm_inversion_raises X self img info Hinv) as [e He].
    eapply compute_bev_raise; [exact Hin | exact He].
Qed.

Lemma view_failure_aborts_frame_witness :
  (∃ e, compute_bev Bench.X Bench.node
          (sync_args [Bench.cam_b_green; Bench.cam_lost]) = Raise e)
  ∧ (∃ e, compute_bev Bench.X Bench.node
            (sync_args [Bench.cam_b_green; Bench.cam_grounded]) = Raise e).
Proof.
  split.
  - apply (view_failure_aborts_frame Bench.X Bench.node
             [Bench.cam_b_green; Bench.cam_lost]
             Bench.cam_lost.1 Bench.cam_lost.2).
    + right. left. reflexivity.
    + left. vm_compute. reflexivity.
  - apply (view_failure_aborts_frame Bench.X Bench.node
             [Bench.cam_b_green; Bench.cam_grounded]
             Bench.cam_grounded.1 Bench.cam_grounded.2).
    + right. left. reflexivity.
    + right. exists Bench.grounded, identity4,
        [[1; 0; 1]; [0; 1; 1 / of_int 2]; [0; 0; 1]]%Qc.
      split; [vm_compute; reflexivity|]. split; [by_eval|].
      split; [by_eval | by_eval].
Defined.

(** C2 as stated fails: with a camera the transform buffer does not know,
    or one on the ground plane, the frame raises, whereas the frame of the
    remaining camera alone is published. *)
Lemma failed_view_is_not_dropped :
  compute_bev Bench.X Bench.node (sync_args [Bench.cam_lost; Bench.cam_b_green])
  = Raise LookupException
  ∧ compute_bev Bench.X Bench.node (sync_args [Bench.cam_grounded; Bench.cam_b_green])
    = Raise LinAlgError
  ∧ compute_bev Bench.X Bench.node
      (sync_args (List.filter (view_ok Bench.X Bench.node)
                    [Bench.cam_lost; Bench.cam_b_green]))
    = Ok (publish Bench.node (Bench.encode [[Bench.green; Bench.green]])).
Proof. split_and!; vm_compute; reflexivity. Qed.

(** C1, on the code. Two views that cover the whole canvas, the first all
    blue [(255, 0, 0)], the second all green [(0, 255, 0)]: the published
    pixels are [(255, 255, 0)], the first view's blue channel with the
    second view's green channel, not the first view's colour. *)
Theorem overlapping_views_mix_channels :
  view_ipm Bench.X Bench.node (inl Bench.cam_a_blue.1) (inr Bench.cam_a_blue.2)
  = Ok [[Bench.blue; Bench.blue]]
  ∧ view_ipm Bench.X Bench.node (inl Bench.cam_b_green.1) (inr Bench.cam_b_green.2)
    = Ok [[Bench.green; Bench.green]]
  ∧ compute_bev Bench.X Bench.node (sync_args [Bench.cam_a_blue; Bench.cam_b_green])
    = Ok (publish Bench.node (Bench.encode [[(255, 255, 0); (255, 255, 0)]])).
Proof. split_and!; vm_compute; reflexivity. Qed.

Lemma where_row_disjoint k (ra rb : list pixel) :
  length ra = length rb →
  Forall (eq black) (drop k ra) → Forall (eq black) (take k rb) →
  zip_with where_px ra rb = take k ra ++ drop k rb
  ∧ zip_with where_px rb ra = take k ra ++ drop k rb.
Proof.
  intros Hlen Ha Hb.
  assert (Ht : length (take k ra) = length (take k rb))
    by (by rewrite !length_take, Hlen).
  assert (Hd : length (drop k ra) = length (drop k rb))
    by (by rewrite !length_drop, Hlen).
  split.
  - rewrite <- (take_drop k ra) at 1. rewrite <- (take_drop k rb) at 1.
    rewrite zip_with_app by exact Ht.
    by rewrite (where_row_black_r _ _ Ht Hb), (where_row_black_l _ _ Hd Ha).
  - rewrite <- (take_drop k ra) at 1. rewrite <- (take_drop k rb) at 1.
    rewrite zip_with_app by (symmetry; exact Ht).
    by rewrite (where_row_black_l _ _ (eq_sym Ht) Hb),
               (where_row_black_r _ _ (eq_sym Hd) Ha).
Qed.

(** On views with disjoint column ranges the element-wise choice is the
    union, in either order. *)
Lemma where_zero_disjoint h w k (A B : image) :
  has_shape h w A → has_shape h w B →
  Forall (λ row, Forall (eq black) (drop k row)) A →
  Forall (λ row, Forall (eq black) (take k row)) B →
  where_zero A B = union_at k A B ∧ where_zero B A = union_at k A B.
Proof.
  intros HA HB. pose proof (has_shape_rows _ _ _ _ HA HB) as Hrows.
  clear HA HB. unfold where_zero, union_at.
  induction Hrows as [|ra rb A B Hlen _ IH]; intros HcA HcB; [done|].
  apply Forall_cons in HcA as [Ha HcA]. apply Forall_cons in HcB as [Hb HcB].
  destruct (IH HcA HcB) as [IH1 IH2].
  destruct (where_row_disjoint k ra rb Hlen Ha Hb) as [H1 H2].
  simpl. by rewrite H1, H2, IH1, IH2.
Qed.

Lemma compute_bev_two X self a b (A B : image) (h w : nat) :
  output_height (config self) = Z.of_nat h →
  output_width (config self) = Z.of_nat w →
  view_ipm X self (inl a.1) (inr a.2) = Ok A →
  view_ipm X self (inl b.1) (inr b.2) = Ok B →
  has_shape h w A → has_shape h w B →
  compute_bev X self (sync_args [a; b])
  = Ok (publish self (cv2_to_imgmsg X (where_zero A B))).
Proof.
  intros Hh Hw Ha Hb HA HB.
  rewrite compute_bev_sync, Hh, Hw, zeros3_ok, bind_Ok_l.
  rewrite !map_cons, bev_loop_cons, Ha, bind_Ok_l.
  rewrite (adjust_bev_where _ h w) by (by apply has_shape_replicate || done).
  rewrite bind_Ok_l, where_zero_fresh by done.
  rewrite bev_loop_cons, Hb, bind_Ok_l.
  by rewrite (adjust_bev_where _ h w) by done.
Qed.

(** C8. Two views of the canvas shape, [A] background from column
    [w / 2] on and [B] background before it: the frame that is published
    is the union of the two, [A]'s columns [[0, w/2)] beside [B]'s columns
    [[w/2, w)], whichever of the two cameras comes first. *)
Theorem disjoint_views_union X self a b (A B : image) (h w : nat) :
  output_height (config self) = Z.of_nat h →
  output_width (config self) = Z.of_nat w →
  view_ipm X self (inl a.1) (inr a.2) = Ok A →
  view_ipm X self (inl b.1) (inr b.2) = Ok B →
  has_shape h w A → has_shape h w B →
  Forall (λ row, Forall (eq black) (drop (w / 2) row)) A →
  Forall (λ row, Forall (eq black) (take (w / 2) row)) B →
  compute_bev X self (sync_args [a; b])
  = Ok (publish self (cv2_to_imgmsg X (union_at (w / 2) A B)))
  ∧ compute_bev X self (sync_args [b; a])
    = Ok (publish self (cv2_to_imgmsg X (union_at (w / 2) A B))).
Proof.
  intros Hh Hw Ha Hb HA HB HcA HcB.
  destruct (where_zero_disjoint h w (w / 2) A B HA HB HcA HcB) as [H1 H2].
  split.
  - by rewrite (compute_bev_two X self a b A B h w), H1.
  - by rewrite (compute_bev_two X self b a B A h w), H2.
Qed.

Lemma disjoint_views_union_witness :
  compute_bev Bench.X Bench.node (sync_args [Bench.cam_a_left; Bench.cam_b_right])
  = Ok (publish Bench.node (Bench.encode [[Bench.blue; Bench.green]]))
  ∧ compute_bev Bench.X Bench.node (sync_args [Bench.cam_b_right; Bench.cam_a_left])
    = Ok (publish Bench.node (Bench.encode [[Bench.blue; Bench.green]])).
Proof.
  apply (disjoint_views_union Bench.X Bench.node Bench.cam_a_left Bench.cam_b_right
           [[Bench.blue; black]] [[black; Bench.green]] 1 2).
  - reflexivity.
  - reflexivity.
  - vm_compute. reflexivity.
  - vm_compute. reflexivity.
  - split; [reflexivity | repeat constructor].
  - split; [reflexivity | repeat constructor].
  - repeat constructor.
  - repeat constructor.
Defined.

(** C5 as stated fails: with a zero focal length the frame raises
    [LinAlgError] and nothing is published, where the other camera alone
    yields a frame; and an intrinsic matrix with zeros on its diagonal but a
    non-zero determinant raises nothing and takes part in the composite. *)
Lemma zero_diagonal_not_excluded :
  compute_bev Bench.X Bench.node (sync_args [Bench.cam_degenerate; Bench.cam_b_green])
  = Raise LinAlgError
  ∧ compute_bev Bench.X Bench.node (sync_args [Bench.cam_b_green])
    = Ok (publish Bench.node (Bench.encode [[Bench.green; Bench.green]]))
  ∧ compute_bev Bench.X Bench.node (sync_args [Bench.cam_permuted; Bench.cam_b_green])
    = Ok (publish Bench.node (Bench.encode [[(255, 255, 0); Bench.green]])).
Proof. split_and!; vm_compute; reflexivity. Qed.

(** ** What a returning callback did *)

Lemma compute_bev_Ok_inv X self args self1 :
  compute_bev X self args = Ok self1 →
  ∃ pairs bev0 bev,
    images_with_info args = Ok pairs
    ∧ zeros3 (output_height (config self)) (output_width (config self)) = Ok bev0
    ∧ bev_loop X self bev0 pairs = Ok bev
    ∧ self1 = publish self (cv2_to_imgmsg X bev).
Proof.
  unfold compute_bev. intros H.
  apply bind_Ok in H as (pairs & Hpairs & H).
  apply bind_Ok in H as (bev0 & Hbev0 & H).
  apply bind_Ok in H as (bev & Hbev & H).
  injection H as <-. by exists pairs, bev0, bev.
Qed.

(** ** The upper-half mask *)

Lemma imap_replicate_const {A B} (f : nat → A → B) n (x : A) (y : B) :
  (∀ i, (i < n)%nat → f i x = y) → imap f (replicate n x) = replicate n y.
Proof.
  revert f. induction n as [|n IH]; intros f Hf; [done|].
  simpl. rewrite (Hf 0%nat) by lia. f_equal.
  apply IH. intros i Hi. apply Hf. lia.
Qed.

Lemma img_width_shape {A} h w (img : list (list A)) :
  has_shape h w img → (0 < h)%nat → img_width img = w.
Proof.
  intros [Hlen Hrows] Hh. destruct img as [|row img]; simpl in *; [lia|].
  by apply Forall_cons in Hrows as [? _].
Qed.

(** Row [r] of the mask that [cv2.rectangle] draws: 255 from row
    [h // 2] on, 0 above. *)
Lemma rectangle_row (h w r : nat) :
  (r < h)%nat →
  rectangle (zeros2 h w) (0, Z.of_nat h / 2) (Z.of_nat w, Z.of_nat h) 255 !! r
  = Some (replicate w (if bool_decide (Z.of_nat h / 2 ≤ Z.of_nat r) then 255 else 0)).
Proof.
  intros Hr. unfold rectangle, zeros2. cbv beta iota zeta.
  rewrite list_lookup_imap, lookup_replicate_2 by done. simpl. f_equal.
  assert (Hhalf : 0 ≤ Z.of_nat h / 2 ≤ Z.of_nat h).
  { split; [apply Z.div_pos; lia | apply Z.div_le_upper_bound; lia]. }
  apply imap_replicate_const. intros x Hx.
  repeat case_bool_decide; try reflexivity; lia.
Qed.

Lemma masked_row_keep (row : list pixel) (m : Z) :
  m ≠ 0 →
  zip_with (λ (pq : pixel * pixel) (m : Z),
              if bool_decide (m = 0) then black else and_px pq.1 pq.2)
           (zip row row) (replicate (length row) m) = row.
Proof.
  intros Hm. induction row as [|[[b g] r] row IH]; [done|].
  simpl. rewrite IH. case_bool_decide; [done|].
  by rewrite !Z.land_diag.
Qed.

Lemma masked_row_zero (row : list pixel) :
  zip_with (λ (pq : pixel * pixel) (m : Z),
              if bool_decide (m = 0) then black else and_px pq.1 pq.2)
           (zip row row) (replicate (length row) 0)
  = replicate (length row) black.
Proof. induction row as [|p row IH]; [done|]. simpl. by rewrite IH. Qed.

(** Row by row: above [h // 2] the masked image is background, from
    [h // 2] on it is the image. *)
Lemma mask_upper_half_row h w (img : image) r row :
  has_shape h w img → img !! r = Some row →
  mask_upper_half img !! r
  = Some (if bool_decide (Z.of_nat h / 2 ≤ Z.of_nat r) then row
          else replicate w black).
Proof.
  intros Hshape Hrow.
  pose proof (lookup_lt_Some _ _ _ Hrow) as Hr.
  destruct Hshape as [Hlen Hrows]. pose proof Hrows as Hrows'.
  rewrite Forall_lookup in Hrows'. pose proof (Hrows' _ _ Hrow) as Hw.
  assert (Hwidth : img_width img = w).
  { apply (img_width_shape h); [done | lia]. }
  unfold mask_upper_half, bitwise_and, img_height. cbv zeta.
  rewrite Hwidth, Hlen.
  rewrite lookup_zip_with, lookup_zip_with, Hrow.
  rewrite rectangle_row by lia. simpl. f_equal. rewrite <- Hw.
  case_bool_decide.
  - by apply masked_row_keep.
  - apply masked_row_zero.
Qed.

Lemma mask_upper_half_shape h w (img : image) :
  has_shape h w img → has_shape h w (mask_upper_half img).
Proof.
  intros Hshape. pose proof Hshape as [Hlen Hrows].
  assert (Hl : length (mask_upper_half img) = h).
  { unfold mask_upper_half, bitwise_and, rectangle, zeros2, img_height.
    rewrite length_zip_with, length_zip_with, length_imap, length_replicate. lia. }
  split; [exact Hl|]. apply Forall_lookup. intros r row' Hrow'.
  assert (is_Some (img !! r)) as [row Hrow].
  { apply lookup_lt_is_Some. apply lookup_lt_Some in Hrow'. lia. }
  rewrite (mask_upper_half_row h w img r row Hshape Hrow) in Hrow'.
  injection Hrow' as <-. rewrite Forall_lookup in Hrows.
  case_bool_decide; [by eapply Hrows | by rewrite length_replicate].
Qed.

(** C6. The image handed to the warp is the masked source: every pixel
    of a row with index below [input_height // 2] is background, every
    row from there on is the source's, the shape is the source's; and two
    sources that agree from row [input_height // 2] on are warped to the
    same view. *)
Theorem mask_upper_half_spec X self (h w : nat) (img : image) :
  has_shape h w img →
  (∀ K E M_ipm, ipm_matrix (config self) K E = Ok M_ipm →
     apply_ipm X self img K E
     = warpPerspective X (mask_upper_half img) M_ipm
         (output_width (config self), output_height (config self)))
  ∧ has_shape h w (mask_upper_half img)
  ∧ (∀ r row, img !! r = Some row → Z.of_nat r < Z.of_nat h / 2 →
            mask_upper_half img !! r = Some (replicate w black))
  ∧ (∀ r, Z.of_nat h / 2 ≤ Z.of_nat r → mask_upper_half img !! r = img !! r)
  ∧ (∀ img' K E, has_shape h w img' →
       (∀ r, Z.of_nat h / 2 ≤ Z.of_nat r → img' !! r = img !! r) →
       apply_ipm X self img' K E = apply_ipm X self img K E).
Proof.
  intros Hshape.
  assert (Hlen : ∀ im : image, has_shape h w im → length (mask_upper_half im) = h).
  { intros im Him. by destruct (mask_upper_half_shape h w im Him). }
  assert (Hhigh : ∀ im : image, has_shape h w im →
            ∀ r, Z.of_nat h / 2 ≤ Z.of_nat r → mask_upper_half im !! r = im !! r).
  { intros im Him r Hr. destruct (im !! r) as [row|] eqn:Hrow.
    - rewrite (mask_upper_half_row h w im r row) by done.
      by rewrite bool_decide_eq_true_2.
    - apply lookup_ge_None. rewrite (Hlen im Him).
      apply lookup_ge_None in Hrow. destruct Him. lia. }
  split_and!.
  - intros K E M_ipm HM. unfold apply_ipm. cbv zeta. by rewrite HM.
  - by apply mask_upper_half_shape.
  - intros r row Hrow Hr. rewrite (mask_upper_half_row h w img r row) by done.
    by rewrite bool_decide_eq_false_2 by lia.
  - by apply Hhigh.
  - intros img' K E Hshape' Hagree. unfold apply_ipm.
    replace (mask_upper_half img') with (mask_upper_half img); [done|].
    apply list_eq. intros r.
    destruct (decide (Z.of_nat h / 2 ≤ Z.of_nat r)) as [Hr|Hr].
    + by rewrite !Hhigh, Hagree.
    + destruct (img !! r) as [row|] eqn:Hrow.
      * assert (is_Some (img' !! r)) as [row' Hrow'].
        { apply lookup_lt_is_Some. apply lookup_lt_Some in Hrow.
          destruct Hshape, Hshape'. lia. }
        rewrite (mask_upper_half_row h w img r row) by done.
        rewrite (mask_upper_half_row h w img' r row') by done.
        by rewrite bool_decide_eq_false_2.
      * apply lookup_ge_None in Hrow.
        rewrite (proj2 (lookup_ge_None (mask_upper_half img) r)),
                (proj2 (lookup_ge_None (mask_upper_half img') r)); [done|..].
        -- rewrite (Hlen img') by done. destruct Hshape. lia.
        -- rewrite (Hlen img) by done. destruct Hshape. lia.
Qed.

Lemma mask_upper_half_spec_witness :
  apply_ipm Bench.X Bench.node Bench.tall
    [[1; 0; 1]; [0; 1; 1 / of_int 2]; [0; 0; 1]]%Qc Bench.E_overhead
  = Bench.warp (mask_upper_half Bench.tall)
      [[1; 0; 0]; [0; - (1); 1]; [0; 0; 1]]%Qc (2, 1)
  ∧ has_shape 5 2 (mask_upper_half Bench.tall)
  ∧ mask_upper_half Bench.tall !! 1%nat = Some [black; black]
  ∧ mask_upper_half Bench.tall !! 2%nat = Bench.tall !! 2%nat.
Proof.
  destruct (mask_upper_half_spec Bench.X Bench.node 5 2 Bench.tall)
    as (Hwarp & Hshape & Hlow & Hhigh & _).
  - split; [reflexivity | repeat constructor].
  - split_and!.
    + apply (Hwarp [[1; 0; 1]; [0; 1; 1 / of_int 2]; [0; 0; 1]]%Qc Bench.E_overhead
               [[1; 0; 0]; [0; - (1); 1]; [0; 0; 1]]%Qc).
      by_eval.
    + exact Hshape.
    + apply (Hlow 1%nat [Bench.green; Bench.green]); reflexivity.
    + apply Hhigh. vm_compute. discriminate.
Defined.
(** * Further properties of the node *)

(** ** Pairing the callback's arguments *)

Lemma images_with_info_Ok args pairs :
  images_with_info args = Ok pairs →
  args = mjoin (map (λ p : Msg * Msg, [p.1; p.2]) pairs).
Proof.
  revert pairs. induction args as [args IH] using (induction_ltof1 _ length).
  unfold ltof in IH. intros pairs.
  destruct args as [|a [|b rest]]; simpl.
  - by intros [= <-].
  - discriminate.
  - destruct (images_with_info rest) as [ps|] eqn:Hrest; [|discriminate].
    simpl. intros [= <-]. simpl. do 2 f_equal. apply IH; [simpl; lia | done].
Qed.

Lemma images_with_info_length args :
  match images_with_info args with
  | Ok pairs => length args = (2 * length pairs)%nat
  | Raise e => e = IndexError ∧ ∃ n, length args = (2 * n + 1)%nat
  end.
Proof.
  induction args as [args IH] using (induction_ltof1 _ length).
  unfold ltof in IH.
  destruct args as [|a [|b rest]]; simpl.
  - done.
  - split; [done | by exists 0%nat].
  - specialize (IH rest ltac:(simpl; lia)).
    destruct (images_with_info rest) as [ps|e]; simpl.
    + lia.
    + destruct IH as [-> [n Hn]]. split; [done|]. exists (S n). lia.
Qed.

(** X1. The callback's arguments are paired two by two in their order:
    an even number of messages gives half as many pairs, which put end to
    end are the arguments again; an odd number raises [IndexError], and
    then [compute_bev] raises it before anything else is done. *)
Theorem images_with_info_pairs X self args :
  (∀ pairs, images_with_info args = Ok pairs →
     args = mjoin (map (λ p : Msg * Msg, [p.1; p.2]) pairs)
     ∧ length args = (2 * length pairs)%nat)
  ∧ ((∃ n, length args = (2 * n)%nat) → ∃ pairs, images_with_info args = Ok pairs)
  ∧ ((∃ n, length args = (2 * n + 1)%nat) →
       images_with_info args = Raise IndexError
       ∧ compute_bev X self args = Raise IndexError).
Proof.
  pose proof (images_with_info_length args) as Hlen.
  split_and!.
  - intros pairs Hp. split; [by apply images_with_info_Ok|].
    by rewrite Hp in Hlen.
  - intros [n Hn]. destruct (images_with_info args) as [ps|e]; [by eexists|].
    destruct Hlen as [_ [m Hm]]. lia.
  - intros [n Hn]. unfold compute_bev.
    destruct (images_with_info args) as [ps|e]; [lia|].
    by destruct Hlen as [-> _].
Qed.

Lemma images_with_info_pairs_witness :
  images_with_info [inl Bench.cam_a_blue.1; inr Bench.cam_a_blue.2;
                    inl Bench.cam_b_green.1] = Raise IndexError
  ∧ compute_bev Bench.X Bench.node
      [inl Bench.cam_a_blue.1; inr Bench.cam_a_blue.2; inl Bench.cam_b_green.1]
    = Raise IndexError.
Proof.
  apply (images_with_info_pairs Bench.X Bench.node).
  exists 1%nat. reflexivity.
Defined.

(** ** The subscribers of [__init__] *)

Lemma init_subs_foldl acc (pairs : list (string * string)) :
  foldl (λ subs (topics : string * string),
           (subs ++ [ImageSubscriber topics.1]) ++ [CameraInfoSubscriber topics.2])
        acc pairs
  = acc ++ mjoin (map (λ topics : string * string,
                         [ImageSubscriber topics.1; CameraInfoSubscriber topics.2])
                      pairs).
Proof.
  revert acc. induction pairs as [|p pairs IH]; intros acc; simpl.
  - by rewrite app_nil_r.
  - rewrite IH. by rewrite <- !app_assoc.
Qed.

Lemma lookup_join_pairs {A B} (f g : A → B) (l : list A) (i : nat) :
  mjoin (map (λ x, [f x; g x]) l) !! (2 * i)%nat = f <$> l !! i
  ∧ mjoin (map (λ x, [f x; g x]) l) !! (2 * i + 1)%nat = g <$> l !! i.
Proof.
  revert i. induction l as [|x l IH]; intros i; [done|].
  destruct i as [|i]; [done|].
  replace (2 * S i)%nat with (S (S (2 * i))) by lia.
  replace (S (S (2 * i)) + 1)%nat with (S (S (2 * i + 1))) by lia.
  simpl. apply IH.
Qed.

(** X2. [__init__] subscribes to the topics in pairs, in the order of the
    configured lists: subscriber [2 i] is the image of topic [i] and
    subscriber [2 i + 1] its camera info. The two lists are zipped, so
    when one is longer its surplus topics get no subscriber and no error
    is raised. *)
Theorem init_subs_alternate (image_topics_in info_topics_in : list string) :
  length (init_subs image_topics_in info_topics_in)
  = (2 * (length image_topics_in `min` length info_topics_in))%nat
  ∧ ∀ i image_topic info_topic,
      image_topics_in !! i = Some image_topic →
      info_topics_in !! i = Some info_topic →
      init_subs image_topics_in info_topics_in !! (2 * i)%nat
      = Some (ImageSubscriber image_topic)
      ∧ init_subs image_topics_in info_topics_in !! (2 * i + 1)%nat
        = Some (CameraInfoSubscriber info_topic).
Proof.
  unfold init_subs. rewrite init_subs_foldl, app_nil_l. split.
  - rewrite <- (length_zip image_topics_in info_topics_in).
    induction (zip image_topics_in info_topics_in) as [|p l IH]; simpl; lia.
  - intros i it ft Hit Hft.
    destruct (lookup_join_pairs (λ t : string * string, ImageSubscriber t.1)
                (λ t : string * string, CameraInfoSubscriber t.2)
                (zip image_topics_in info_topics_in) i) as [-> ->].
    rewrite lookup_zip_with, Hit. simpl. by rewrite Hft.
Qed.

Lemma init_subs_alternate_witness :
  init_subs ["/a/image"; "/b/image"; "/c/image"] ["/a/info"; "/b/info"] !! 2%nat
  = Some (ImageSubscriber "/b/image")
  ∧ init_subs ["/a/image"; "/b/image"; "/c/image"] ["/a/info"; "/b/info"] !! 3%nat
    = Some (CameraInfoSubscriber "/b/info").
Proof.
  destruct (init_subs_alternate ["/a/image"; "/b/image"; "/c/image"]
              ["/a/info"; "/b/info"]) as [_ H].
  apply (H 1%nat); reflexivity.
Defined.

(** ** The extrinsic matrix *)

(** X3. Whatever the transform and whatever the trigonometric functions
    return, [compute_bev] builds an extrinsic: none of the products and
    stackings raises. It is a 4x4 matrix whose last row is [0, 0, 0, 1] and
    whose last column, above that row, is the translation of the
    transform. *)
Theorem extrinsic_structure X (tf : Transform) :
  ∃ E, extrinsic X tf = Ok E
       ∧ is_mat 4 4 E = true
       ∧ last E = Some [0; 0; 0; 1]%Qc
       ∧ translation_part E
         = [v_x (translation tf); v_y (translation tf); v_z (translation tf)].
Proof.
  unfold extrinsic.
  destruct (euler_from_quaternion X _) as [[roll pitch] yaw].
  mcompute. eexists. split; [reflexivity|]. by split_and!.
Qed.

(** ** When the scale cannot be written *)

(** X6. With [px_per_m = 0] the scale matrix cannot be written down:
    [apply_ipm] raises [ZeroDivisionError] for every image, intrinsic and
    extrinsic matrix, before any product is formed or the image is
    warped. *)
Theorem apply_ipm_zero_px_per_m X self (img : image) (K E : matrix) :
  px_per_m (config self) = 0 →
  apply_ipm X self img K E = Raise ZeroDivisionError.
Proof.
  intros Hp. unfold apply_ipm, ipm_matrix, projection_of_canvas.
  by rewrite (road_to_vehicle_zero _ Hp).
Qed.

Lemma apply_ipm_zero_px_per_m_witness :
  apply_ipm Bench.X
    {| config := load_parameters
                   {| p_image_topics_in := ["/a/image"];
                      p_info_topics_in := ["/a/info"];
                      p_vehicle_base_link := "base_link";
                      p_px_per_m := 0;
                      p_output_width := 2;
                      p_output_height := 1 |};
       vehicle_base_link := "base_link"; tfBuffer := ∅; pub := [] |}
    Bench.tall Bench.K_wide Bench.E_overhead
  = Raise ZeroDivisionError.
Proof. apply apply_ipm_zero_px_per_m. reflexivity. Defined.

(** ** Where the vehicle origin lands *)




(** ** The mask, once more *)

(** X8. Masking keeps the shape of the image and masking a masked image
    changes nothing. *)
Theorem mask_upper_half_idempotent (h w : nat) (img : image) :
  has_shape h w img →
  has_shape h w (mask_upper_half img)
  ∧ mask_upper_half (mask_upper_half img) = mask_upper_half img.
Proof.
  intros Hshape. pose proof (mask_upper_half_shape h w img Hshape) as Hm.
  split; [exact Hm|]. apply list_eq. intros r.
  destruct (mask_upper_half img !! r) as [row'|] eqn:Hrow'.
  - rewrite (mask_upper_half_row h w _ r row' Hm Hrow').
    assert (is_Some (img !! r)) as [row Hrow].
    { apply lookup_lt_is_Some. apply lookup_lt_Some in Hrow'.
      destruct Hm, Hshape. lia. }
    rewrite (mask_upper_half_row h w img r row Hshape Hrow) in Hrow'.
    injection Hrow' as <-. f_equal.
    repeat case_bool_decide; first [reflexivity | lia].
  - apply lookup_ge_None. apply lookup_ge_None in Hrow'.
    destruct (mask_upper_half_shape h w _ Hm), Hm. lia.
Qed.

Lemma mask_upper_half_idempotent_witness :
  has_shape 5 2 (mask_upper_half Bench.tall)
  ∧ mask_upper_half (mask_upper_half Bench.tall) = mask_upper_half Bench.tall.
Proof.
  apply mask_upper_half_idempotent.
  split; [reflexivity | repeat constructor].
Defined.

(** ** Line 188 and the shapes of its operands *)

(** X9. On a canvas of [h > 0] rows of [w > 0] pixels line 188 goes
    through exactly when the warped view has the shape of the canvas, and
    then it is the channel-wise choice; a view of any other shape ends in
    numpy's [IndexError]. On a canvas without rows numpy selects and
    assigns nothing: a view of the canvas's width, of any number of rows,
    raises nothing. *)
Theorem adjust_bev_shapes width (h w h' w' : nat) (canvas view : image) :
  has_shape h w canvas → has_shape h' w' view →
  ((0 < h)%nat → (0 < w)%nat →
     adjust_bev width canvas view
     = if bool_decide (h' = h ∧ w' = w) then Ok (where_zero canvas view)
       else Raise IndexError)
  ∧ (h = 0%nat → width = 0%nat ∨ width = w' →
     adjust_bev width canvas view = Ok []).
Proof.
  intros Hc Hv. split.
  - intros Hh Hw. case_bool_decide as Hsame.
    + destruct Hsame as [-> ->]. by apply (adjust_bev_where _ h w).
    + destruct (adjust_bev width canvas view) as [bev|e] eqn:Hadj.
      * exfalso. apply Hsame.
        destruct (adjust_bev_Ok_inv _ _ _ _ Hadj) as [_ [-> | Hfit]].
        { destruct Hc as [Hlen _]. simpl in Hlen. lia. }
        destruct Hc as [Hlc Hrc], Hv as [Hlv Hrv].
        pose proof (Forall2_length _ _ _ Hfit) as Hlen.
        split; [lia|].
        destruct Hfit as [|ra rb canvas view Hab _]; [simpl in Hlc; lia|].
        apply Forall_cons in Hrc as [Hra _]. apply Forall_cons in Hrv as [Hrb _].
        destruct Hab as [-> | Hab]; simpl in *; lia.
      * by rewrite (adjust_bev_Raise _ _ _ _ Hadj).
  - intros -> Hwidth. destruct Hc as [Hlc _].
    apply nil_length_inv in Hlc as ->. apply adjust_bev_nil.
    destruct view as [|row view]; [by left|]. right.
    destruct Hwidth as [-> | ->]; [by left|]. right.
    symmetry. apply (img_width_shape h'); [done|].
    destruct Hv as [Hlv _]. simpl in Hlv. lia.
Qed.

Lemma adjust_bev_shapes_witness :
  adjust_bev 2 [[black; Bench.blue]] [[Bench.green; Bench.green]]
  = Ok (where_zero [[black; Bench.blue]] [[Bench.green; Bench.green]])
  ∧ adjust_bev 2 [[black; Bench.blue]]
      [[Bench.green; Bench.green]; [Bench.green; Bench.green]]
    = Raise IndexError
  ∧ adjust_bev 2 [] [[Bench.green; Bench.green]; [Bench.green; Bench.green]]
    = Ok [].
Proof.
  split_and!.
  - apply (adjust_bev_shapes 2 1 2 1 2 [[black; Bench.blue]]
             [[Bench.green; Bench.green]]); try lia;
      (split; [reflexivity | repeat constructor]).
  - apply (adjust_bev_shapes 2 1 2 2 2 [[black; Bench.blue]]
             [[Bench.green; Bench.green]; [Bench.green; Bench.green]]); try lia;
      (split; [reflexivity | repeat constructor]).
  - apply (adjust_bev_shapes 2 0 2 2 2 []
             [[Bench.green; Bench.green]; [Bench.green; Bench.green]]);
      [split; [reflexivity | repeat constructor]
      |split; [reflexivity | repeat constructor]
      |reflexivity
      |by right].
Defined.

(** ** What the loop keeps and what it publishes *)

Lemma where_zero_shape h w (canvas view : image) :
  has_shape h w canvas → same_rows canvas view →
  has_shape h w (where_zero canvas view).
Proof.
  intros [Hlen Hrows] Hsame. unfold where_zero. split.
  - rewrite length_zip_with, <- (Forall2_length _ _ _ Hsame). lia.
  - clear Hlen. induction Hsame as [|ra rb canvas view Hab _ IH]; [constructor|].
    apply Forall_cons in Hrows as [Hra Hrows]. simpl. constructor; [|by apply IH].
    rewrite length_zip_with. lia.
Qed.

Lemma where_zero_shape_fit h w (canvas view : image) :
  has_shape h w canvas → canvas = [] ∨ rows_fit canvas view →
  has_shape h w (where_zero canvas view).
Proof.
  intros [Hlen Hrows] [-> | Hfit].
  - split; [exact Hlen | constructor].
  - unfold where_zero. split.
    + rewrite length_zip_with, <- (Forall2_length _ _ _ Hfit). lia.
    + clear Hlen. induction Hfit as [|ra rb canvas view Hab _ IH]; [constructor|].
      apply Forall_cons in Hrows as [Hra Hrows]. simpl. constructor; [|by apply IH].
      rewrite length_zip_with. destruct Hab as [-> | Hab]; simpl in *; lia.
Qed.

Lemma bev_loop_shape X self h w (canvas bev : image) pairs :
  has_shape h w canvas →
  bev_loop X self canvas pairs = Ok bev → has_shape h w bev.
Proof.
  revert canvas.
  induction pairs as [|[image_msg cam_info_msg] pairs IH]; intros canvas Hshape.
  - by intros [= <-].
  - simpl. destruct (view_ipm X self image_msg cam_info_msg) as [out|]; [|done].
    simpl. destruct (adjust_bev _ canvas out) as [bev1|] eqn:Hadj; [|done].
    simpl. apply IH.
    destruct (adjust_bev_Ok_inv _ _ _ _ Hadj) as [-> Hfit].
    by apply where_zero_shape_fit.
Qed.

(** X10. Whatever the collaborators return, a frame that is published has
    the configured size: [compute_bev] returns only when the configured
    height and width are not negative, and the one message it appends
    encodes a canvas of [output_height] rows of [output_width] pixels. A
    warp of another size never reaches the publisher. *)
Theorem published_frame_has_canvas_shape X self args self' :
  compute_bev X self args = Ok self' →
  0 ≤ output_height (config self) ∧ 0 ≤ output_width (config self)
  ∧ ∃ bev, self' = publish self (cv2_to_imgmsg X bev)
           ∧ has_shape (Z.to_nat (output_height (config self)))
                       (Z.to_nat (output_width (config self))) bev.
Proof.
  intros H.
  destruct (compute_bev_Ok_inv _ _ _ _ H) as (pairs & bev0 & bev & _ & Hz & Hl & ->).
  unfold zeros3 in Hz. case_bool_decide as Hneg; [done|]. injection Hz as <-.
  split; [lia|]. split; [lia|]. exists bev. split; [done|].
  eapply bev_loop_shape; [|exact Hl]. apply has_shape_replicate.
Qed.

Lemma published_frame_has_canvas_shape_witness :
  ∃ bev, publish Bench.node (Bench.encode [[Bench.blue; Bench.green]])
         = publish Bench.node (cv2_to_imgmsg Bench.X bev)
         ∧ has_shape 1 2 bev.
Proof.
  destruct (published_frame_has_canvas_shape Bench.X Bench.node
              (sync_args [Bench.cam_a_left; Bench.cam_b_right])
              (publish Bench.node (Bench.encode [[Bench.blue; Bench.green]])))
    as (_ & _ & bev & Hbev & Hshape).
  - vm_compute. reflexivity.
  - exists bev. split; [exact Hbev | exact Hshape].
Defined.

(** ** Any number of views *)

Lemma pixel_at_where_zero (canvas view : image) r c :
  same_rows canvas view →
  pixel_at (where_zero canvas view) r c
  = where_px (pixel_at canvas r c) (pixel_at view r c).
Proof.
  intros Hsame. unfold pixel_at, where_zero. rewrite lookup_zip_with.
  destruct (canvas !! r) as [ra|] eqn:Ha.
  - destruct (Forall2_lookup_l _ _ _ _ _ Hsame Ha) as (rb & Hb & Hlen).
    rewrite Hb. simpl. rewrite lookup_zip_with.
    destruct (ra !! c) as [p|] eqn:Hp; simpl.
    + assert (is_Some (rb !! c)) as [q ->]; [|done].
      apply lookup_lt_is_Some. apply lookup_lt_Some in Hp. lia.
    + assert (rb !! c = None) as ->; [|done].
      apply lookup_ge_None. apply lookup_ge_None in Hp. lia.
  - simpl. assert (view !! r = None) as ->; [|done].
    apply lookup_ge_None. apply lookup_ge_None in Ha.
    by rewrite <- (Forall2_length _ _ _ Hsame).
Qed.

Lemma chan_where_px k (a b : pixel) :
  chan k (where_px a b) = if bool_decide (chan k a = 0) then chan k b else chan k a.
Proof. destruct a as [[? ?] ?], b as [[? ?] ?]. by destruct k. Qed.

(** Folding the channel-wise choice over the views: every channel is the
    first one in order that is not zero. *)
Lemma foldl_where_zero_chan h w (canvas : image) (outs : list image) r c k :
  has_shape h w canvas → Forall (has_shape h w) outs →
  has_shape h w (foldl where_zero canvas outs)
  ∧ chan k (pixel_at (foldl where_zero canvas outs) r c)
    = first_nonzero (chan k (pixel_at canvas r c)
                     :: map (λ out, chan k (pixel_at out r c)) outs).
Proof.
  intros Hc Houts. revert canvas Hc.
  induction Houts as [|out outs Hout _ IH]; intros canvas Hc.
  - split; [done|]. simpl. by case_bool_decide.
  - pose proof (has_shape_rows _ _ _ _ Hc Hout) as Hsame.
    destruct (IH (where_zero canvas out) (where_zero_shape _ _ _ _ Hc Hsame))
      as [Hshape Hchan].
    split; [exact Hshape|].
    change (foldl where_zero canvas (out :: outs))
      with (foldl where_zero (where_zero canvas out) outs).
    rewrite Hchan, (pixel_at_where_zero _ _ _ _ Hsame), chan_where_px.
    simpl. by repeat case_bool_decide.
Qed.

Lemma bev_loop_views X self h w (canvas : image) views (outs : list image) :
  has_shape h w canvas →
  Forall2 (λ v out, view_ipm X self (inl v.1) (inr v.2) = Ok out) views outs →
  Forall (has_shape h w) outs →
  bev_loop X self canvas (map as_pair views) = Ok (foldl where_zero canvas outs).
Proof.
  intros Hc Hviews. revert canvas Hc.
  induction Hviews as [|v out views outs Hv _ IH]; intros canvas Hc Houts; [done|].
  apply Forall_cons in Houts as [Hout Houts].
  rewrite map_cons, bev_loop_cons, Hv, bind_Ok_l.
  pose proof (has_shape_rows _ _ _ _ Hc Hout) as Hsame.
  rewrite (adjust_bev_same_rows _ _ _ Hsame), bind_Ok_l.
  apply IH; [by apply where_zero_shape | done].
Qed.

Lemma compute_bev_views X self (h w : nat) views (outs : list image) :
  output_height (config self) = Z.of_nat h →
  output_width (config self) = Z.of_nat w →
  Forall2 (λ v out, view_ipm X self (inl v.1) (inr v.2) = Ok out) views outs →
  Forall (has_shape h w) outs →
  compute_bev X self (sync_args views)
  = Ok (publish self (cv2_to_imgmsg X
          (foldl where_zero (replicate h (replicate w black)) outs))).
Proof.
  intros Hh Hw Hviews Houts.
  rewrite compute_bev_sync, Hh, Hw, zeros3_ok, bind_Ok_l.
  by rewrite (bev_loop_views X self h w _ views outs
                (has_shape_replicate h w black) Hviews Houts).
Qed.

Lemma first_nonzero_zero l : first_nonzero (0 :: l) = first_nonzero l.
Proof. reflexivity. Qed.

Lemma first_nonzero_nonzero x l : x ≠ 0 → first_nonzero (x :: l) = x.
Proof. intros Hx. simpl. by rewrite bool_decide_eq_false_2. Qed.

Lemma chan_black k : chan k black = 0.
Proof. by destruct k. Qed.

Lemma pixel_at_replicate h w r c :
  pixel_at (replicate h (replicate w black)) r c = black.
Proof.
  unfold pixel_at. destruct (replicate h _ !! r) as [row|] eqn:Hrow; [|done].
  apply lookup_replicate in Hrow as [-> _]. simpl.
  destruct (replicate w black !! c) as [p|] eqn:Hp; [|done].
  by apply lookup_replicate in Hp as [-> _].
Qed.

(** X11. A frame of any number of cameras whose warped views have the
    canvas size: the frame is published, and each channel of each of its
    pixels is the first non-zero value of that channel at that pixel among
    the views, in the order of the cameras, or zero when no view has one.
    With no camera at all the frame is all background. *)
Theorem composite_is_first_nonzero_channel X self (h w : nat) views
    (outs : list image) :
  output_height (config self) = Z.of_nat h →
  output_width (config self) = Z.of_nat w →
  Forall2 (λ v out, view_ipm X self (inl v.1) (inr v.2) = Ok out) views outs →
  Forall (has_shape h w) outs →
  ∃ bev, compute_bev X self (sync_args views)
         = Ok (publish self (cv2_to_imgmsg X bev))
         ∧ has_shape h w bev
         ∧ ∀ r c k, chan k (pixel_at bev r c)
                    = first_nonzero (map (λ out, chan k (pixel_at out r c)) outs).
Proof.
  intros Hh Hw Hviews Houts.
  exists (foldl where_zero (replicate h (replicate w black)) outs).
  split; [by apply compute_bev_views|].
  pose proof (has_shape_replicate h w black) as Hz.
  split.
  - by destruct (foldl_where_zero_chan h w _ outs 0 0 Blue Hz Houts).
  - intros r c k.
    destruct (foldl_where_zero_chan h w _ outs r c k Hz Houts) as [_ ->].
    by rewrite pixel_at_replicate, chan_black, first_nonzero_zero.
Qed.

Lemma composite_is_first_nonzero_channel_witness :
  ∃ bev, compute_bev Bench.X Bench.node
           (sync_args [Bench.cam_a_blue; Bench.cam_b_green; Bench.cam_a_left])
         = Ok (publish Bench.node (cv2_to_imgmsg Bench.X bev))
         ∧ has_shape 1 2 bev
         ∧ ∀ r c k, chan k (pixel_at bev r c)
                    = first_nonzero
                        (map (λ out, chan k (pixel_at out r c))
                           [[[Bench.blue; Bench.blue]]; [[Bench.green; Bench.green]];
                            [[Bench.blue; black]]]).
Proof.
  apply (composite_is_first_nonzero_channel Bench.X Bench.node 1 2
           [Bench.cam_a_blue; Bench.cam_b_green; Bench.cam_a_left]).
  - reflexivity.
  - reflexivity.
  - repeat constructor; vm_compute; reflexivity.
  - repeat constructor.
Defined.

(** X12. Where the first camera that sees a pixel, in the order of the
    cameras, sees it with three non-zero channels, the published pixel is
    that camera's pixel, whatever the later cameras see there. *)
Theorem first_opaque_view_wins X self (h w : nat) views
    (before after : list image) (out : image) (r c : nat) :
  output_height (config self) = Z.of_nat h →
  output_width (config self) = Z.of_nat w →
  Forall2 (λ v o, view_ipm X self (inl v.1) (inr v.2) = Ok o) views
          (before ++ out :: after) →
  Forall (has_shape h w) (before ++ out :: after) →
  Forall (λ o, pixel_at o r c = black) before →
  (∀ k, chan k (pixel_at out r c) ≠ 0) →
  ∃ bev, compute_bev X self (sync_args views)
         = Ok (publish self (cv2_to_imgmsg X bev))
         ∧ pixel_at bev r c = pixel_at out r c.
Proof.
  intros Hh Hw Hviews Houts Hbefore Hopaque.
  exists (foldl where_zero (replicate h (replicate w black)) (before ++ out :: after)).
  split; [by apply compute_bev_views|].
  pose proof (has_shape_replicate h w black) as Hz.
  assert (Hchan : ∀ k,
            chan k (pixel_at (foldl where_zero (replicate h (replicate w black))
                                (before ++ out :: after)) r c)
            = chan k (pixel_at out r c)).
  { intros k.
    destruct (foldl_where_zero_chan h w _ (before ++ out :: after) r c k Hz Houts)
      as [_ ->].
    rewrite pixel_at_replicate, chan_black, first_nonzero_zero.
    clear Hviews Houts. induction Hbefore as [|o before Ho _ IH].
    - apply first_nonzero_nonzero, Hopaque.
    - rewrite <- app_comm_cons, map_cons, Ho, chan_black.
      by rewrite first_nonzero_zero. }
  pose proof (Hchan Blue) as Hb. pose proof (Hchan Green) as Hg.
  pose proof (Hchan Red) as Hr. simpl in Hb, Hg, Hr.
  destruct (pixel_at (foldl _ _ _) r c) as [[? ?] ?],
           (pixel_at out r c) as [[? ?] ?].
  simpl in *. congruence.
Qed.

Lemma first_opaque_view_wins_witness :
  ∃ bev, compute_bev Bench.X Bench.node
           (sync_args [Bench.cam_a_left;
                       (Bench.lower_row "cam_b" black (7, 255, 9),
                        Bench.cam_info "cam_b" Bench.k_unit);
                       Bench.cam_a_blue])
         = Ok (publish Bench.node (cv2_to_imgmsg Bench.X bev))
         ∧ pixel_at bev 0 1 = pixel_at [[black; (7, 255, 9)]] 0 1.
Proof.
  apply (first_opaque_view_wins Bench.X Bench.node 1 2
           [Bench.cam_a_left;
            (Bench.lower_row "cam_b" black (7, 255, 9),
             Bench.cam_info "cam_b" Bench.k_unit);
            Bench.cam_a_blue]
           [[[Bench.blue; black]]] [[[Bench.blue; Bench.blue]]]).
  - reflexivity.
  - reflexivity.
  - repeat constructor; vm_compute; reflexivity.
  - repeat constructor.
  - repeat constructor.
  - intros k. destruct k; vm_compute; discriminate.
Defined.

(** ** A camera with a zero on the diagonal of its intrinsic matrix *)

Lemma bev_loop_Ok_inv X self (canvas bev : image) views :
  bev_loop X self canvas (map as_pair views) = Ok bev →
  ∃ outs,
    Forall2 (λ v out, view_ipm X self (inl v.1) (inr v.2) = Ok out) views outs
    ∧ bev = foldl where_zero canvas outs.
Proof.
  revert canvas. induction views as [|v views IH]; intros canvas.
  - intros [= <-]. exists []. split; [constructor | done].
  - rewrite map_cons, bev_loop_cons.
    destruct (view_ipm X self (inl v.1) (inr v.2)) as [out|] eqn:Hv; [|done].
    rewrite bind_Ok_l.
    destruct (adjust_bev _ canvas out) as [bev1|] eqn:Hadj; [|done].
    rewrite bind_Ok_l. intros H. destruct (IH _ H) as (outs & Houts & ->).
    destruct (adjust_bev_Ok_inv _ _ _ _ Hadj) as [-> _].
    exists (out :: outs). split; [by constructor | done].
Qed.

(** C5 (amended). A zero on the diagonal of a camera's intrinsic matrix is
    not looked for, and the camera is never left out of a frame that
    completes: if processing the camera raises, the frame raises and
    nothing is published; if the frame completes, every camera of the
    frame, this one included, yielded a warped view, and the published
    canvas is the composite of all of them in their order. *)
Theorem zero_diagonal_camera_not_excluded X self views img info K :
  In (img, info) views →
  reshape33 (k info) = Ok K → zero_on_diagonal K →
  (∀ e, view_ipm X self (inl img) (inr info) = Raise e →
        ∃ e', compute_bev X self (sync_args views) = Raise e')
  ∧ (∀ self', compute_bev X self (sync_args views) = Ok self' →
       ∃ bev0 outs out,
         zeros3 (output_height (config self)) (output_width (config self)) = Ok bev0
         ∧ Forall2 (λ v o, view_ipm X self (inl v.1) (inr v.2) = Ok o) views outs
         ∧ view_ipm X self (inl img) (inr info) = Ok out ∧ In out outs
         ∧ self' = publish self (cv2_to_imgmsg X (foldl where_zero bev0 outs))).
Proof.
  intros Hin HK Hzero. split.
  - intros e He. by apply (compute_bev_raise X self views (img, info) e).
  - intros self' H. rewrite compute_bev_sync in H.
    apply bind_Ok in H as (bev0 & Hbev0 & H).
    apply bind_Ok in H as (bev & Hbev & H). injection H as <-.
    destruct (bev_loop_Ok_inv _ _ _ _ _ Hbev) as (outs & Houts & ->).
    apply list_elem_of_In, list_elem_of_lookup_1 in Hin as [i Hi].
    destruct (Forall2_lookup_l _ _ _ _ _ Houts Hi) as (out & Hout & Hview).
    exists bev0, outs, out. split_and!; try done.
    apply list_elem_of_In. by eapply list_elem_of_lookup_2.
Qed.

Lemma zero_diagonal_camera_not_excluded_witness :
  (∃ e', compute_bev Bench.X Bench.node
           (sync_args [Bench.cam_degenerate; Bench.cam_b_green]) = Raise e')
  ∧ ∃ bev0 outs out,
      zeros3 (output_height (config Bench.node)) (output_width (config Bench.node))
      = Ok bev0
      ∧ Forall2 (λ v o, view_ipm Bench.X Bench.node (inl v.1) (inr v.2) = Ok o)
                [Bench.cam_permuted; Bench.cam_b_green] outs
      ∧ view_ipm Bench.X Bench.node (inl Bench.cam_permuted.1)
                 (inr Bench.cam_permuted.2) = Ok out
      ∧ In out outs
      ∧ publish Bench.node (Bench.encode [[(255, 255, 0); Bench.green]])
        = publish Bench.node (cv2_to_imgmsg Bench.X (foldl where_zero bev0 outs)).
Proof.
  split.
  - destruct (zero_diagonal_camera_not_excluded Bench.X Bench.node
                [Bench.cam_degenerate; Bench.cam_b_green]
                Bench.cam_degenerate.1 Bench.cam_degenerate.2
                [[0; 0; 1]; [0; 1; 1 / of_int 2]; [0; 0; 1]]%Qc)
      as [Hraise _].
    + left. reflexivity.
    + by_eval.
    + left. reflexivity.
    + apply (Hraise LinAlgError). vm_compute. reflexivity.
  - destruct (zero_diagonal_camera_not_excluded Bench.X Bench.node
                [Bench.cam_permuted; Bench.cam_b_green]
                Bench.cam_permuted.1 Bench.cam_permuted.2
                [[0; 1; - (1 / of_int 2)]; [1; 0; of_int 2]; [0; 0; 1]]%Qc)
      as [_ Hok].
    + left. reflexivity.
    + by_eval.
    + left. reflexivity.
    + apply Hok. vm_compute. reflexivity.
Defined.
